(** * deeppath: XPath-like access to nested Python structures

    A shallow embedding of [deeppath/deeppath.py] and the properties of its
    readers ([dget], [dget2]), its writer ([dset]) and its leaf walker
    ([dwalk]).

    Modelling conventions.
    - A Python [str] is a list of characters; characters are the code points
      0..255, and the classes [\d] and [\w] are those of Python's [re] on
      that range.
    - A value is [None], a [bool], an [int], a [str], a [list] or a [dict]
      (a [float] is treated by every function here as an [int] is);
      a [dict] is an association list in insertion order whose keys are
      [str] or [int] ([int] keys arise when [dset] indexes into a mapping).
      [str] and [list] are the instances of [Sequence], [list] the only
      instance of [MutableSequence], [dict] the only [Mapping].
    - A call that can raise returns a [result]; [dset], which mutates its
      argument in place, returns the state of the tree after the call
      together with the exception that ended it, if any.  Trees carry no
      sharing: every container has one parent.
    - [int()] has no bound on the number of digits, except in
      [dget_limited], the fan-out reader under the interpreter's default
      limit of 4300 digits; the interpreter's recursion limit is reached
      only by the self-recursion of [_flatdget] on a character. *)

From Stdlib Require Import Ascii String.
From Stdlib Require Import List ZArith NArith Bool Lia.
From Stdlib Require Import Decimal DecimalNat.
Import ListNotations.

Set Warnings "-register-all".

Local Open Scope char_scope.
Local Open Scope Z_scope.

(** ** Strings *)

Definition str := list ascii.

(** A literal, written as a Rocq string. *)
Definition py (s : string) : str := list_ascii_of_string s.

Definition str_eqb (a b : str) : bool :=
  if list_eq_dec ascii_dec a b then true else false.

Definition is_slash (c : ascii) : bool := Ascii.eqb c "/".

(** [\d] *)
Definition is_digit (c : ascii) : bool :=
  let n := N_of_ascii c in ((48 <=? n) && (n <=? 57))%N.

(** [\w]: alphanumeric in the sense of [str.isalnum], or the underscore. *)
Definition is_word (c : ascii) : bool :=
  let n := N_of_ascii c in
  (((48 <=? n) && (n <=? 57)) || ((65 <=? n) && (n <=? 90)) || (n =? 95)
   || ((97 <=? n) && (n <=? 122))
   || (n =? 170) || (n =? 178) || (n =? 179) || (n =? 181) || (n =? 185)
   || (n =? 186) || ((188 <=? n) && (n <=? 190))
   || ((192 <=? n) && (n <=? 214)) || ((216 <=? n) && (n <=? 246))
   || (248 <=? n))%N.

(** [[\w\*]] *)
Definition is_word_or_star (c : ascii) : bool := is_word c || Ascii.eqb c "*".

(** [[\d-]] *)
Definition is_digit_or_dash (c : ascii) : bool := is_digit c || Ascii.eqb c "-".

(** The longest prefix of [s] in the class [p], and what follows it. *)
Fixpoint span (p : ascii -> bool) (s : str) : str * str :=
  match s with
  | [] => ([], [])
  | c :: rest =>
      if p c then let (a, b) := span p rest in (c :: a, b) else ([], s)
  end.

(** [s.split("/")] *)
Fixpoint split (s : str) : list str :=
  match s with
  | [] => [[]]
  | c :: rest =>
      if is_slash c then [] :: split rest
      else match split rest with
           | [] => [[c]]
           | w :: ws => (c :: w) :: ws
           end
  end.

(** ["/".join(parts)] *)
Fixpoint join (parts : list str) : str :=
  match parts with
  | [] => []
  | [p] => p
  | p :: rest => p ++ "/" :: join rest
  end.

(** [path[1:]] when [path.startswith("/")], else [path]. *)
Definition strip_slash (path : str) : str :=
  match path with
  | c :: rest => if is_slash c then rest else path
  | [] => path
  end.

(** ** Integers and their text *)

Definition digit_value (c : ascii) : Z := Z.of_N (N_of_ascii c) - 48.

Definition digits_value (ds : str) : Z :=
  fold_left (fun acc c => 10 * acc + digit_value c) ds 0.

(** A leading [-], if any, and what follows it. *)
Definition strip_sign (s : str) : bool * str :=
  match s with
  | c :: body => if Ascii.eqb c "-" then (true, body) else (false, s)
  | [] => (false, s)
  end.

(** [int(text)] for a text matched by [-?\d+]: an optional sign, then the
    digits. *)
Definition int_group (negative : bool) (ds : str) : Z :=
  if negative then - digits_value ds else digits_value ds.

(** [int(text)] for a text over digits and dashes (a group of [[\d-]+]):
    [None] stands for [ValueError]. *)
Definition py_int (text : str) : option Z :=
  let (negative, body) := strip_sign text in
  match body with
  | [] => None
  | _ :: _ => if forallb is_digit body then Some (int_group negative body) else None
  end.

Fixpoint uint_chars (d : uint) : str :=
  match d with
  | Nil => []
  | D0 d => "0" :: uint_chars d
  | D1 d => "1" :: uint_chars d
  | D2 d => "2" :: uint_chars d
  | D3 d => "3" :: uint_chars d
  | D4 d => "4" :: uint_chars d
  | D5 d => "5" :: uint_chars d
  | D6 d => "6" :: uint_chars d
  | D7 d => "7" :: uint_chars d
  | D8 d => "8" :: uint_chars d
  | D9 d => "9" :: uint_chars d
  end.

(** [f"{index}"] for an index of [enumerate]. *)
Definition format_index (index : nat) : str := uint_chars (Nat.to_uint index).

(** ** Exceptions and results *)

Inductive exn : Set :=
| KeyError | TypeError | IndexError | ValueError | AttributeError | RecursionError.

Inductive result (A : Type) : Type :=
| Ok (a : A)
| Raise (e : exn).
Arguments Ok {A} a.
Arguments Raise {A} e.

Definition bind {A B} (r : result A) (k : A -> result B) : result B :=
  match r with
  | Ok a => k a
  | Raise e => Raise e
  end.

Notation "x <- r ;; k" := (bind r (fun x => k))
  (at level 61, r at next level, right associativity).

(** ** Values *)

Inductive pykey : Set :=
| KStr (s : str)
| KInt (z : Z).

Inductive value : Set :=
| VNone
| VBool (b : bool)
| VInt (z : Z)
| VStr (s : str)
| VList (items : list value)
| VDict (entries : list (pykey * value)).

Definition dict := list (pykey * value).

Definition pykey_eqb (a b : pykey) : bool :=
  match a, b with
  | KStr s, KStr t => str_eqb s t
  | KInt x, KInt y => Z.eqb x y
  | _, _ => false
  end.

(** [d.get(k)] *)
Fixpoint dict_get (k : pykey) (d : dict) : option value :=
  match d with
  | [] => None
  | (k', v) :: rest => if pykey_eqb k k' then Some v else dict_get k rest
  end.

(** [k in d] *)
Definition dict_has (k : pykey) (d : dict) : bool :=
  match dict_get k d with Some _ => true | None => false end.

(** [d[k] = v]: an existing key keeps its place, a new one goes last. *)
Fixpoint dict_set (k : pykey) (v : value) (d : dict) : dict :=
  match d with
  | [] => [(k, v)]
  | (k', v') :: rest =>
      if pykey_eqb k k' then (k', v) :: rest else (k', v') :: dict_set k v rest
  end.

(** [d.values()] *)
Definition dict_values (d : dict) : list value := map snd d.

(** The elements of an instance of [Sequence]; iterating a [str] gives its
    characters, each a [str] of length one. *)
Definition as_sequence (v : value) : option (list value) :=
  match v with
  | VList items => Some items
  | VStr s => Some (map (fun c => VStr [c]) s)
  | _ => None
  end.

Definition is_sequence (v : value) : bool :=
  match as_sequence v with Some _ => true | None => false end.

(** The position that index [i] denotes in a sequence of length [n]:
    a negative index counts from the end. *)
Definition py_position (n : nat) (i : Z) : option nat :=
  if 0 <=? i then (if i <? Z.of_nat n then Some (Z.to_nat i) else None)
  else (if - Z.of_nat n <=? i then Some (Z.to_nat (Z.of_nat n + i)) else None).

(** [xs[i]]; [None] stands for [IndexError]. *)
Definition py_index {A} (xs : list A) (i : Z) : option A :=
  match py_position (length xs) i with
  | Some p => nth_error xs p
  | None => None
  end.

Fixpoint list_set {A} (xs : list A) (p : nat) (x : A) : list A :=
  match xs, p with
  | [], _ => []
  | _ :: rest, O => x :: rest
  | y :: rest, S p' => y :: list_set rest p' x
  end.

(** [xs[i] = x]; [None] stands for [IndexError]. *)
Definition py_setitem {A} (xs : list A) (i : Z) (x : A) : option (list A) :=
  match py_position (length xs) i with
  | Some p => Some (list_set xs p x)
  | None => None
  end.

(** ** The path compiler *)

Inductive command : Set :=
| ThroughListFlat
| ThroughListIndexed (index : Z)
| ThroughDictFlat
| ThroughDictKey (key : str).

(** The commands are named tuples and compare as the tuples of their
    fields: the two field-less commands are equal to each other. *)
Definition fields (c : command) : list pykey :=
  match c with
  | ThroughListFlat => []
  | ThroughListIndexed index => [KInt index]
  | ThroughDictFlat => []
  | ThroughDictKey key => [KStr key]
  end.

Fixpoint tuple_eqb (a b : list pykey) : bool :=
  match a, b with
  | [], [] => true
  | x :: a', y :: b' => pykey_eqb x y && tuple_eqb a' b'
  | _, _ => false
  end.

Definition command_eqb (a b : command) : bool := tuple_eqb (fields a) (fields b).

(** [c in commands] *)
Definition command_in (c : command) (commands : list command) : bool :=
  existsb (command_eqb c) commands.

(** A match of [-?\d+] followed by a closing bracket at the head of [s]:
    the sign, the digits and what follows the bracket. *)
Definition signed_digits (s : str) : option (bool * str * str) :=
  let (negative, body) := strip_sign s in
  let (ds, after) := span is_digit body in
  match ds, after with
  | _ :: _, c :: rest => if Ascii.eqb c "]" then Some (negative, ds, rest) else None
  | _, _ => None
  end.

(** [re.match(r"\[(-?\d+)\]", str_token)], then [int] of its group: the
    match is anchored at the start of the token only. *)
Definition match_list_index (str_token : str) : option Z :=
  match str_token with
  | c :: s =>
      if Ascii.eqb c "[" then
        match signed_digits s with
        | Some (negative, ds, _) => Some (int_group negative ds)
        | None => None
        end
      else None
  | [] => None
  end.

Definition make_command (str_token : str) : command :=
  if str_eqb str_token (py "*") then ThroughDictFlat
  else if str_eqb str_token (py "[*]") then ThroughListFlat
  else match match_list_index str_token with
       | Some index => ThroughListIndexed index
       | None => ThroughDictKey str_token
       end.

(** The length of a match of [\[(?:\*|-?\d+)\]] at the head of [s]. *)
Definition bracket_length (s : str) : option nat :=
  match s with
  | c :: body =>
      if Ascii.eqb c "[" then
        if str_eqb (firstn 2 body) (py "*]") then Some 3%nat
        else match signed_digits body with
             | Some (negative, ds, _) =>
                 Some (S ((if negative then 1 else 0) + length ds + 1))%nat
             | None => None
             end
      else None
  | [] => None
  end.

(** [re.sub(r"([^/])(\[(?:\*|-?\d+)\])", r"\g<1>/\g<2>", s)], scanning from
    the left: [copy] counts the characters of the bracket of the current
    match still to be copied, during which no new match can start. *)
Fixpoint sub_scan (copy : nat) (s : str) : str :=
  match s with
  | [] => []
  | c :: rest =>
      match copy with
      | S n => c :: sub_scan n rest
      | O =>
          if is_slash c then c :: sub_scan 0 rest
          else match bracket_length rest with
               | Some n => c :: "/" :: sub_scan n rest
               | None => c :: sub_scan 0 rest
               end
      end
  end.

Definition separate_brackets (s : str) : str := sub_scan 0 s.

(** Line 52 and line 53: the commands of a path whose leading slash is
    already gone. *)
Definition compile (path : str) : list command :=
  let path_commands := split (separate_brackets path) in
  map make_command path_commands.

(** [path[0]] raises [IndexError] on the empty path. *)
Definition read_path (path : str) : result (list command) :=
  match path with
  | [] => Raise IndexError
  | c :: rest =>
      let path := if is_slash c then rest else path in
      Ok (compile path)
  end.

(** ** The fan-out reader *)

Fixpoint go_through_dict_key (key : str) (list_of_items : list value) : list value :=
  match list_of_items with
  | [] => []
  | item :: rest =>
      match item with
      | VDict d =>
          match dict_get (KStr key) d with
          | Some v => v :: go_through_dict_key key rest
          | None => go_through_dict_key key rest
          end
      | _ => go_through_dict_key key rest
      end
  end.

(** The guard [len(item) > index] lets every negative index through. *)
Fixpoint go_through_list_index (index : Z) (list_of_items : list value)
  : result (list value) :=
  match list_of_items with
  | [] => Ok []
  | item :: rest =>
      match as_sequence item with
      | Some xs =>
          if Z.of_nat (length xs) >? index then
            match py_index xs index with
            | Some x => result <- go_through_list_index index rest ;; Ok (x :: result)
            | None => Raise IndexError
            end
          else go_through_list_index index rest
      | None => go_through_list_index index rest
      end
  end.

Fixpoint go_through_list_flat (list_of_items : list value) : list value :=
  match list_of_items with
  | [] => []
  | item :: rest =>
      match as_sequence item with
      | Some xs => xs ++ go_through_list_flat rest
      | None => go_through_list_flat rest
      end
  end.

Fixpoint go_through_dict_flat (list_of_items : list value) : list value :=
  match list_of_items with
  | [] => []
  | item :: rest =>
      match item with
      | VDict d => dict_values d ++ go_through_dict_flat rest
      | _ => go_through_dict_flat rest
      end
  end.

Fixpoint process_commands (commands : list command) (data : list value)
  : result (list value) :=
  match commands with
  | [] => Ok data
  | next_command :: commands' =>
      match next_command with
      | ThroughDictKey key =>
          process_commands commands' (go_through_dict_key key data)
      | ThroughListIndexed index =>
          data' <- go_through_list_index index data ;;
          process_commands commands' data'
      | ThroughListFlat => process_commands commands' (go_through_list_flat data)
      | ThroughDictFlat => process_commands commands' (go_through_dict_flat data)
      end
  end.

Definition dget (data : value) (path : str) (default : value) : result value :=
  commands <- read_path path ;;
  result_list <- process_commands commands [data] ;;
  match result_list with
  | [] => Ok default
  | first :: _ =>
      if negb (command_in ThroughListFlat commands)
         && negb (command_in ThroughDictFlat commands)
      then Ok first
      else Ok (VList result_list)
  end.


(** ** Repetition references *)

(** A match of [([\w\*]+)\[([\d-]+)\]] starting at the head of [s]: its two
    groups.  Each class excludes the bracket that must follow it, so the
    only candidate is the longest run. *)
Definition repetition_at (s : str) : option (str * str) :=
  let (name, after) := span is_word_or_star s in
  match name, after with
  | _ :: _, c :: inner =>
      if Ascii.eqb c "[" then
        let (number, close) := span is_digit_or_dash inner in
        match number, close with
        | _ :: _, c' :: _ => if Ascii.eqb c' "]" then Some (name, number) else None
        | _, _ => None
        end
      else None
  | _, _ => None
  end.

(** [_REPETITION_REGEX.search(key)]: the leftmost match. *)
Fixpoint repetition_search (key : str) : option (str * str) :=
  match key with
  | [] => None
  | _ :: rest =>
      match repetition_at key with
      | Some groups => Some groups
      | None => repetition_search rest
      end
  end.

(** [None] when the key does not match; [int] raises [ValueError] on a
    number such as [1-2]. *)
Definition _get_repetition_index (key : str) : result (option (str * Z)) :=
  match repetition_search key with
  | Some (key, repetition_number) =>
      match py_int repetition_number with
      | Some index => Ok (Some (key, index))
      | None => Raise ValueError
      end
  | None => Ok None
  end.

(** ** The legacy reader *)

(** [[f(x) for x in xs]]: the first exception ends the comprehension. *)
Fixpoint each_result {A B} (f : A -> result B) (xs : list A) : result (list B) :=
  match xs with
  | [] => Ok []
  | x :: rest =>
      y <- f x ;;
      ys <- each_result f rest ;;
      Ok (y :: ys)
  end.

(** [data[key]] where [data] is not a sequence or [key] is an [int]. *)
Definition getitem (data : value) (key : pykey) : result value :=
  match data with
  | VDict d =>
      match dict_get key d with
      | Some v => Ok v
      | None => Raise KeyError
      end
  | VList _ | VStr _ =>
      match key with
      | KInt index =>
          match as_sequence data with
          | Some xs =>
              match py_index xs index with
              | Some x => Ok x
              | None => Raise IndexError
              end
          | None => Raise TypeError
          end
      | KStr _ => Raise TypeError
      end
  | VNone | VBool _ | VInt _ => Raise TypeError
  end.

(** A [str] key is broadcast over a sequence.  A character is itself a
    sequence whose one element is that character, so broadcasting over a
    non-empty [str] never ends: it stops at the recursion limit. *)
Fixpoint _flatdget (data : value) (key : pykey) {struct data} : result value :=
  match key, data with
  | KStr _, VList items =>
      values <- each_result (fun value => _flatdget value key) items ;;
      Ok (VList values)
  | KStr _, VStr [] => Ok (VList [])
  | KStr _, VStr (_ :: _) => Raise RecursionError
  | _, _ => getitem data key
  end.

(** [data.values()] *)
Definition values_of (data : value) : result (list value) :=
  match data with
  | VDict d => Ok (dict_values d)
  | _ => Raise AttributeError
  end.

(** The body of the loop of [dget2], for one segment of the path. *)
Definition dget2_step (data : value) (key : str) : result value :=
  repetition <- _get_repetition_index key ;;
  match repetition with
  | Some (key, index) =>
      if negb (str_eqb key (py "*")) then
        data <- _flatdget data (KStr key) ;;
        _flatdget data (KInt index)
      else
        values <- values_of data ;;
        picked <- each_result (fun value => _flatdget value (KInt index)) values ;;
        Ok (VList picked)
  | None =>
      if negb (str_eqb key (py "*")) then _flatdget data (KStr key)
      else if negb (is_sequence data) then
             values <- values_of data ;;
             Ok (VList values)
           else Ok data
  end.

Fixpoint dget2_loop (keys : list str) (data : value) : result value :=
  match keys with
  | [] => Ok data
  | key :: rest =>
      data <- dget2_step data key ;;
      dget2_loop rest data
  end.

(** [except (KeyError, TypeError, IndexError)] *)
Definition caught (e : exn) : bool :=
  match e with
  | KeyError | TypeError | IndexError => true
  | _ => false
  end.

Definition dget2 (data : value) (path : str) (default : value) : result value :=
  let path := strip_slash path in
  match dget2_loop (split path) data with
  | Ok data => Ok data
  | Raise e => if caught e then Ok default else Raise e
  end.


(** ** The writer *)

(** [len(x)]; [None] stands for [TypeError]. *)
Definition py_len (x : value) : option nat :=
  match x with
  | VList items => Some (length items)
  | VStr s => Some (length s)
  | VDict d => Some (length d)
  | VNone | VBool _ | VInt _ => None
  end.

(** The state of the tree after a call, and the exception that ended the
    call, if any. *)
Definition outcome : Set := value * option exn.

(** The last segment: lines 175 to 186, applied to the object that [data]
    names once the loop is over.  On anything but a [dict] each branch
    ends in [TypeError] before it changes anything: [key in data] is
    defined on a sequence, but then either the assignment or the lookup
    [data[key]] is refused. *)
Definition dset_last (last_key : str) (data value : value) : outcome :=
  match _get_repetition_index last_key with
  | Raise e => (data, Some e)
  | Ok None =>
      match data with
      | VDict d => (VDict (dict_set (KStr last_key) value d), None)
      | _ => (data, Some TypeError)
      end
  | Ok (Some (key, index)) =>
      match data with
      | VDict d =>
          match dict_get (KStr key) d with
          | None => (VDict (dict_set (KStr key) (VList [value]) d), None)
          | Some x =>
              match py_len x with
              | None => (data, Some TypeError)
              | Some n =>
                  if Z.of_nat n =? index then
                    match x with
                    | VList items =>
                        (VDict (dict_set (KStr key) (VList (items ++ [value])) d), None)
                    | _ => (data, Some AttributeError)
                    end
                  else
                    match x with
                    | VList items =>
                        match py_setitem items index value with
                        | Some items' =>
                            (VDict (dict_set (KStr key) (VList items') d), None)
                        | None => (data, Some IndexError)
                        end
                    | VDict inner =>
                        (VDict (dict_set (KStr key)
                                  (VDict (dict_set (KInt index) value inner)) d), None)
                    | _ => (data, Some TypeError)
                    end
              end
          end
      | _ => (data, Some TypeError)
      end
  end.

(** Lines 164 and 165: a missing key gets an empty mapping. *)
Definition ensure_key (key : str) (d : dict) : dict :=
  if negb (dict_has (KStr key) d) then dict_set (KStr key) (VDict []) d else d.

(** Lines 169 to 172: a missing key gets the list of one empty mapping,
    whatever the index; a list whose length is the index gets an empty
    mapping appended. *)
Definition ensure_slot (key : str) (index : Z) (d : dict) : result dict :=
  match dict_get (KStr key) d with
  | None => Ok (dict_set (KStr key) (VList [VDict []]) d)
  | Some x =>
      match py_len x with
      | None => Raise TypeError
      | Some n =>
          if Z.of_nat n =? index then
            match x with
            | VList items => Ok (dict_set (KStr key) (VList (items ++ [VDict []])) d)
            | _ => Raise AttributeError
            end
          else Ok d
      end
  end.

(** The loop of lines 161 to 173 followed by the last segment.  [data] is
    the object the cursor names; the result is that object after the whole
    call.  Descending into a child and mutating it in place shows in the
    parent, which the model rebuilds on the way back.  A character of a
    [str] is a value of its own: nothing below it can be written. *)
Fixpoint dset_loop (keys : list str) (last_key : str) (data value : value)
  {struct keys} : outcome :=
  match keys with
  | [] => dset_last last_key data value
  | key :: rest =>
      match _get_repetition_index key with
      | Raise e => (data, Some e)
      | Ok None =>
          match data with
          | VDict d =>
              let d1 := ensure_key key d in
              match dict_get (KStr key) d1 with
              | Some child =>
                  let (child', raised) := dset_loop rest last_key child value in
                  (VDict (dict_set (KStr key) child' d1), raised)
              | None => (VDict d1, Some KeyError)
              end
          | _ => (data, Some TypeError)
          end
      | Ok (Some (key, index)) =>
          match data with
          | VDict d =>
              match ensure_slot key index d with
              | Raise e => (data, Some e)
              | Ok d1 =>
                  match dict_get (KStr key) d1 with
                  | Some (VList items) =>
                      match py_position (length items) index with
                      | Some p =>
                          match nth_error items p with
                          | Some child =>
                              let (child', raised) :=
                                dset_loop rest last_key child value in
                              (VDict (dict_set (KStr key)
                                        (VList (list_set items p child')) d1), raised)
                          | None => (VDict d1, Some IndexError)
                          end
                      | None => (VDict d1, Some IndexError)
                      end
                  | Some (VDict inner) =>
                      match dict_get (KInt index) inner with
                      | Some child =>
                          let (child', raised) :=
                            dset_loop rest last_key child value in
                          (VDict (dict_set (KStr key)
                                    (VDict (dict_set (KInt index) child' inner)) d1),
                           raised)
                      | None => (VDict d1, Some KeyError)
                      end
                  | Some (VStr s) =>
                      match py_index s index with
                      | Some c =>
                          (VDict d1, snd (dset_loop rest last_key (VStr [c]) value))
                      | None => (VDict d1, Some IndexError)
                      end
                  | Some _ => (VDict d1, Some TypeError)
                  | None => (VDict d1, Some KeyError)
                  end
              end
          | _ => (data, Some TypeError)
          end
      end
  end.

(** The object that [data] names when the loop of lines 161 to 173 is
    over; [None] when the loop raises. *)
Fixpoint dset_cursor (keys : list str) (data : value) {struct keys} : option value :=
  match keys with
  | [] => Some data
  | key :: rest =>
      match _get_repetition_index key with
      | Raise _ => None
      | Ok None =>
          match data with
          | VDict d =>
              match dict_get (KStr key) (ensure_key key d) with
              | Some child => dset_cursor rest child
              | None => None
              end
          | _ => None
          end
      | Ok (Some (key, index)) =>
          match data with
          | VDict d =>
              match ensure_slot key index d with
              | Raise _ => None
              | Ok d1 =>
                  match dict_get (KStr key) d1 with
                  | Some (VList items) =>
                      match py_index items index with
                      | Some child => dset_cursor rest child
                      | None => None
                      end
                  | Some (VDict inner) =>
                      match dict_get (KInt index) inner with
                      | Some child => dset_cursor rest child
                      | None => None
                      end
                  | Some (VStr s) =>
                      match py_index s index with
                      | Some c => dset_cursor rest (VStr [c])
                      | None => None
                      end
                  | _ => None
                  end
              end
          | _ => None
          end
      end
  end.

(** [dset(data, path, value)] *)
Definition dset (data : value) (path : str) (value : value) : outcome :=
  let path := strip_slash path in
  let segments := split path in
  dset_loop (removelast segments) (last segments []) data value.

(** ** The leaf walker *)

(** ["/".join(path)]: every component must be a [str]. *)
Fixpoint str_components (path : list pykey) : option (list str) :=
  match path with
  | [] => Some []
  | KStr s :: rest =>
      match str_components rest with
      | Some parts => Some (s :: parts)
      | None => None
      end
  | KInt _ :: _ => None
  end.

(** [subpath = path[:]; subpath[-1] = subpath[-1] + f"[{index}]"] *)
Definition annotate_last (path : list pykey) (index : nat) : result (list pykey) :=
  match List.rev path with
  | [] => Raise IndexError
  | KStr s :: before =>
      Ok (List.rev before ++ [KStr (s ++ "[" :: format_index index ++ ["]"])])
  | KInt _ :: _ => Raise TypeError
  end.

(** What a generator produced before it stopped, and the exception that
    stopped it, if any. *)
Definition yielded : Set := list (str * value) * option exn.

Definition then_yield (first : yielded) (next : yielded) : yielded :=
  match first with
  | (pairs, Some e) => (pairs, Some e)
  | (pairs, None) => (pairs ++ fst next, snd next)
  end.

(** One generator after the other, up to the first that raises. *)
Definition yield_from_all (generators : list yielded) : yielded :=
  fold_right then_yield ([], None) generators.

(** [[f(index, x) for index, x in enumerate(xs, start)]] *)
Fixpoint enumerate_with {A B} (f : nat -> A -> B) (start : nat) (xs : list A) : list B :=
  match xs with
  | [] => []
  | x :: rest => f start x :: enumerate_with f (S start) rest
  end.

Fixpoint _dwalk_with_path (data : value) (path : list pykey) {struct data} : yielded :=
  match data with
  | VDict d =>
      yield_from_all
        (map (fun '(key, value) =>
                let subpath := path ++ [key] in
                _dwalk_with_path value subpath) d)
  | VList xs =>
      yield_from_all
        (enumerate_with
           (fun index value =>
              match annotate_last path index with
              | Raise e => ([], Some e)
              | Ok subpath => _dwalk_with_path value subpath
              end) 0%nat xs)
  | _ =>
      match str_components path with
      | Some parts => ([(join parts, data)], None)
      | None => ([], Some TypeError)
      end
  end.

(** [dwalk(data)], iterated to its end. *)
Definition dwalk (data : value) : yielded := _dwalk_with_path data [].

(** ** Vocabulary of the properties *)

(** A command that fans out: [*] or [[*]]. *)
Definition is_flat (c : command) : bool :=
  match c with
  | ThroughListFlat | ThroughDictFlat => true
  | ThroughListIndexed _ | ThroughDictKey _ => false
  end.

Definition has_flat (commands : list command) : bool := existsb is_flat commands.

(** A leaf of the data model: neither a mapping nor a list. *)
Definition is_scalar (v : value) : bool :=
  match v with
  | VList _ | VDict _ => false
  | _ => true
  end.

(** Some item of the batch is a mapping that holds [key]. *)
Definition key_reachable (key : str) (batch : list value) : bool :=
  existsb (fun item =>
             match item with
             | VDict d => dict_has (KStr key) d
             | _ => false
             end) batch.


(** The text of a signed integer between brackets, as the grammar of paths
    writes it: [[], an optional [-], digits, []]. *)
Definition sign_text (negative : bool) : str := if negative then ["-"] else [].

Definition index_text (negative : bool) (ds : str) : str :=
  "[" :: sign_text negative ++ ds ++ ["]"].

(** [\d+] *)
Definition digits (ds : str) : bool :=
  match ds with
  | [] => false
  | _ :: _ => forallb is_digit ds
  end.

(** A bare key: not empty, and free of slashes and opening brackets. *)
Definition bare (token : str) : bool :=
  match token with
  | [] => false
  | _ :: _ => forallb (fun c => negb (is_slash c) && negb (Ascii.eqb c "[")) token
  end.

(** The token starts with a bracketed signed integer. *)
Definition begins_with_index (token : str) : Prop :=
  exists negative ds rest, digits ds = true /\ token = index_text negative ds ++ rest.

Definition no_slash (s : str) : bool := forallb (fun c => negb (is_slash c)) s.

(** A key that a path can name: bare, and not the wildcard. *)
Definition plain_key (key : str) : bool := bare key && negb (str_eqb key (py "*")).

(** A [dict] holds each key once. *)
Fixpoint unique_keys (d : dict) : bool :=
  match d with
  | [] => true
  | (key, _) :: rest => negb (dict_has key rest) && unique_keys rest
  end.



(** A key of a repetition reference: a non-empty run of word characters
    and stars, other than the wildcard. *)
Definition word_key (key : str) : bool :=
  match key with
  | [] => false
  | _ :: _ => forallb is_word_or_star key && negb (str_eqb key (py "*"))
  end.

(** A segment of a path without wildcard: a key, or a key followed by a
    bracketed signed integer, given by its sign and its digits. *)
Inductive step : Set :=
| Key (key : str)
| KeyAt (key : str) (negative : bool) (ds : str).

Definition step_text (s : step) : str :=
  match s with
  | Key key => key
  | KeyAt key negative ds => key ++ index_text negative ds
  end.

Definition step_ok (s : step) : bool :=
  match s with
  | Key key => plain_key key
  | KeyAt key _ ds => word_key key && digits ds
  end.

Definition step_commands (s : step) : list command :=
  match s with
  | Key key => [ThroughDictKey key]
  | KeyAt key negative ds =>
      [ThroughDictKey key; ThroughListIndexed (int_group negative ds)]
  end.

(** The path written with these segments, with or without the leading
    slash. *)
Definition path_text (leading_slash : bool) (steps : list step) : str :=
  (if leading_slash then ["/"] else []) ++ join (map step_text steps).

(** The fan-out reader reaches exactly [v] along [p]. *)
Definition resolves (t : value) (p : str) (v : value) : Prop :=
  exists commands,
    read_path p = Ok commands /\ process_commands commands [t] = Ok [v].

(** The last segment is a repetition reference of index 1 whose key the
    mapping at hand does not hold: the writer makes the list of one
    element, and afterwards finds its length equal to the index. *)
Definition creates_at_one (last_key : str) (cursor : value) : bool :=
  match _get_repetition_index last_key, cursor with
  | Ok (Some (key, index)), VDict d => negb (dict_has (KStr key) d) && (index =? 1)
  | _, _ => false
  end.





(** The last command of the path indexes a [str]: what the commands before
    it reach from [t] is a [str], of which the path names a character. *)
Definition indexes_str (t : value) (p : str) : bool :=
  match read_path p with
  | Ok commands =>
      match process_commands (removelast commands) [t] with
      | Ok [VStr _] => true
      | _ => false
      end
  | Raise _ => false
  end.

(** ** Vocabulary of the further properties *)

(** The text that names a command on its own, as a step between slashes. *)
Definition command_text (c : command) : str :=
  match c with
  | ThroughDictFlat => py "*"
  | ThroughListFlat => py "[*]"
  | ThroughListIndexed index =>
      index_text (index <? 0) (format_index (Z.abs_nat index))
  | ThroughDictKey key => key
  end.

(** A command that a text can name: its key, if any, is a plain key. *)
Definition command_ok (c : command) : bool :=
  match c with
  | ThroughDictKey key => plain_key key
  | _ => true
  end.

(** The leaves of a tree, depth first, in the order of the keys and of the
    indices. *)
Fixpoint leaves (v : value) {struct v} : list value :=
  match v with
  | VDict d => flat_map (fun '(_, x) => leaves x) d
  | VList xs => flat_map leaves xs
  | _ => [v]
  end.

(** Every key of every mapping of the tree is a [str]. *)
Fixpoint str_keyed (v : value) {struct v} : bool :=
  match v with
  | VDict d =>
      forallb (fun '(key, x) =>
                 match key with
                 | KStr _ => true
                 | KInt _ => false
                 end && str_keyed x) d
  | VList xs => forallb str_keyed xs
  | _ => true
  end.

(** The segment is the wildcard, or a repetition reference of the
    wildcard. *)
Definition names_wildcard (segment : str) : bool :=
  match _get_repetition_index segment with
  | Ok (Some (key, _)) => str_eqb key (py "*")
  | Ok None => str_eqb segment (py "*")
  | Raise _ => false
  end.

(** The last segment is a repetition reference whose key the mapping at
    hand does not hold and whose index is neither 0 nor -1: the writer
    makes a list of one element, where that index finds nothing. *)
Definition creates_out_of_reach (last_key : str) (cursor : value) : bool :=
  match _get_repetition_index last_key, cursor with
  | Ok (Some (key, index)), VDict d =>
      negb (dict_has (KStr key) d) && negb ((index =? 0) || (index =? -1))
  | _, _ => false
  end.

(** The key that a segment addresses in the mapping at hand. *)
Definition segment_key (segment : str) : option str :=
  match _get_repetition_index segment with
  | Ok (Some (key, _)) => Some key
  | Ok None => Some segment
  | Raise _ => None
  end.

Definition starts_with_slash (p : str) : bool :=
  match p with
  | c :: _ => is_slash c
  | [] => false
  end.

(** The tree that holds [v] under the keys, one mapping inside the
    other. *)
Fixpoint nest (keys : list str) (v : value) : value :=
  match keys with
  | [] => v
  | key :: rest => VDict [(KStr key, nest rest v)]
  end.

(** Every item is a mapping that holds [key]. *)
Definition all_hold (key : str) (items : list value) : bool :=
  forallb (fun item =>
             match item with
             | VDict d => dict_has (KStr key) d
             | _ => false
             end) items.

(** The trees whose leaves the walker names with paths that the legacy
    reader reads back: as [walkable], and a key that holds a list is made
    of word characters and stars. *)
Fixpoint legacy_walkable (inside_list : bool) (v : value) {struct v} : bool :=
  match v with
  | VDict d =>
      unique_keys d
      && forallb (fun '(key, x) =>
                    match key with
                    | KStr s =>
                        plain_key s
                        && match x with
                           | VList _ => word_key s
                           | _ => true
                           end
                    | KInt _ => false
                    end && legacy_walkable false x) d
  | VList xs => negb inside_list && forallb (legacy_walkable true) xs
  | _ => true
  end.

(** ** The fan-out reader under the limit on the digits of a numeral *)

(** The interpreter refuses, by default, to convert a numeral of more than
    4300 digits, zeros at the head included and the sign apart. *)
Definition int_max_str_digits : nat := 4300.

(** [int(text)] for a text matched by [-?\d+], under that limit. *)
Definition int_limited (negative : bool) (ds : str) : result Z :=
  if (length ds <=? int_max_str_digits)%nat then Ok (int_group negative ds)
  else Raise ValueError.

(** [make_command], where [int] can raise. *)
Definition make_command_limited (str_token : str) : result command :=
  if str_eqb str_token (py "*") then Ok ThroughDictFlat
  else if str_eqb str_token (py "[*]") then Ok ThroughListFlat
  else match str_token with
       | c :: s =>
           if Ascii.eqb c "[" then
             match signed_digits s with
             | Some (negative, ds, _) =>
                 index <- int_limited negative ds ;;
                 Ok (ThroughListIndexed index)
             | None => Ok (ThroughDictKey str_token)
             end
           else Ok (ThroughDictKey str_token)
       | [] => Ok (ThroughDictKey str_token)
       end.

(** [read_path], where the comprehension of line 53 ends at the first
    token whose numeral is refused. *)
Definition read_path_limited (path : str) : result (list command) :=
  match path with
  | [] => Raise IndexError
  | c :: rest =>
      let path := if is_slash c then rest else path in
      each_result make_command_limited (split (separate_brackets path))
  end.

(** [dget] over [read_path_limited]. *)
Definition dget_limited (data : value) (path : str) (default : value) : result value :=
  commands <- read_path_limited path ;;
  result_list <- process_commands commands [data] ;;
  match result_list with
  | [] => Ok default
  | first :: _ =>
      if negb (command_in ThroughListFlat commands)
         && negb (command_in ThroughDictFlat commands)
      then Ok first
      else Ok (VList result_list)
  end.

(** * Properties *)

(** ** Sanity checks on the examples of the documentation *)

Example read_path_example :
  read_path (py "/a[0]/b[*]/*[3]/[-7]")
  = Ok [ThroughDictKey (py "a"); ThroughListIndexed 0; ThroughDictKey (py "b");
        ThroughListFlat; ThroughDictFlat; ThroughListIndexed 3;
        ThroughListIndexed (-7)].
Proof. reflexivity. Qed.

Example dget_negative_index_example :
  dget (VList [VInt 1; VInt 2; VInt 3]) (py "[-1]") VNone = Ok (VInt 3).
Proof. reflexivity. Qed.

Example dset_repetition_example :
  let t0 := VDict [] in
  let t1 := fst (dset t0 (py "items[0]/v") (VStr (py "x"))) in
  dset t1 (py "items[1]/v") (VStr (py "y"))
  = (VDict [(KStr (py "items"),
             VList [VDict [(KStr (py "v"), VStr (py "x"))];
                    VDict [(KStr (py "v"), VStr (py "y"))]])], None).
Proof. reflexivity. Qed.

(** A wildcard [*] fans out over mappings only: over a list of users it
    drops the list, where the legacy reader broadcasts the next key. *)
Example users_example :
  let t := VDict [(KStr (py "users"),
                   VList [VDict [(KStr (py "name"), VStr (py "Al"))];
                          VDict [(KStr (py "name"), VStr (py "Bo"))]])] in
  dget t (py "users[0]/name") VNone = Ok (VStr (py "Al"))
  /\ dget t (py "users[*]/name") VNone = Ok (VList [VStr (py "Al"); VStr (py "Bo")])
  /\ dget t (py "users/*/name") VNone = Ok VNone
  /\ dget2 t (py "users/*/name") VNone = Ok (VList [VStr (py "Al"); VStr (py "Bo")])
  /\ dwalk t = ([(py "users[0]/name", VStr (py "Al"));
                 (py "users[1]/name", VStr (py "Bo"))], None).
Proof. repeat split. Qed.

(** Exceptions outside the three that [dget2] catches go through. *)
Example dget2_uncaught_example :
  dget2 (VDict [(KStr (py "a"), VStr (py "hi"))]) (py "a/b") VNone = Raise RecursionError
  /\ dget2 (VDict []) (py "a[1-2]") VNone = Raise ValueError
  /\ dget2 (VList [VInt 1]) (py "*[0]") VNone = Raise AttributeError.
Proof. repeat split. Qed.

(** ** The result policy of [dget] *)


Lemma command_in_list_flat (commands : list command) :
  command_in ThroughListFlat commands = has_flat commands.
Proof.
  induction commands as [|c cs IH]; [reflexivity|].
  simpl. rewrite <- IH. destruct c; reflexivity.
Qed.

Lemma command_in_dict_flat (commands : list command) :
  command_in ThroughDictFlat commands = has_flat commands.
Proof.
  induction commands as [|c cs IH]; [reflexivity|].
  simpl. rewrite <- IH. destruct c; reflexivity.
Qed.

Lemma dget_unfold (t : value) (p : str) (default : value)
      (commands : list command) (batch : list value) :
  read_path p = Ok commands ->
  process_commands commands [t] = Ok batch ->
  dget t p default
  = Ok match batch with
       | [] => default
       | first :: _ => if has_flat commands then VList batch else first
       end.
Proof.
  intros Hp Hb. unfold dget. rewrite Hp. simpl. rewrite Hb. simpl.
  destruct batch as [|first others]; [reflexivity|].
  rewrite command_in_list_flat, command_in_dict_flat.
  destruct (has_flat commands); reflexivity.
Qed.

(** C1. With a non-empty final batch, a path that compiles to some
    flattening command returns the whole batch as a list, even a batch of
    one; a path without flattening command returns the first element of the
    batch and drops the others. *)
Theorem dget_result_policy :
  (forall (t : value) (p : str) (default : value)
          (commands : list command) (first : value) (others : list value),
      read_path p = Ok commands ->
      process_commands commands [t] = Ok (first :: others) ->
      (has_flat commands = true ->
       dget t p default = Ok (VList (first :: others)))
      /\ (has_flat commands = false -> dget t p default = Ok first))
  /\ dget (VDict [(KStr (py "a"), VDict [(KStr (py "x"), VInt 1)])]) (py "a/*") VNone
     = Ok (VList [VInt 1]).
Proof.
  split; [|reflexivity].
  intros t p default commands first others Hp Hb.
  rewrite (dget_unfold _ _ default _ _ Hp Hb).
  split; intros ->; reflexivity.
Qed.

Lemma dget_result_policy_witness :
  dget (VDict [(KStr (py "a"), VList [VInt 4; VInt 5])]) (py "a[*]") VNone
  = Ok (VList [VInt 4; VInt 5])
  /\ dget (VDict [(KStr (py "a"), VList [VInt 4; VInt 5])]) (py "a") VNone
     = Ok (VList [VInt 4; VInt 5]).
Proof.
  split.
  - apply (proj1 dget_result_policy
             (VDict [(KStr (py "a"), VList [VInt 4; VInt 5])]) (py "a[*]") VNone
             [ThroughDictKey (py "a"); ThroughListFlat] (VInt 4) [VInt 5]);
      reflexivity.
  - apply (proj1 dget_result_policy
             (VDict [(KStr (py "a"), VList [VInt 4; VInt 5])]) (py "a") VNone
             [ThroughDictKey (py "a")] (VList [VInt 4; VInt 5]) []);
      reflexivity.
Defined.

(** ** The default of [dget] *)


Lemma process_commands_nil (commands : list command) :
  process_commands commands [] = Ok [].
Proof. induction commands as [|c cs IH]; [reflexivity|]. destruct c; simpl; exact IH. Qed.

Lemma process_commands_app (a b : list command) (batch : list value) :
  process_commands (a ++ b) batch
  = (batch' <- process_commands a batch ;; process_commands b batch').
Proof.
  revert batch. induction a as [|c a IH]; intros batch; [reflexivity|].
  destruct c; simpl; try apply IH.
  destruct (go_through_list_index index batch); simpl; [apply IH|reflexivity].
Qed.

Lemma go_through_dict_key_unreachable (key : str) (batch : list value) :
  key_reachable key batch = false -> go_through_dict_key key batch = [].
Proof.
  induction batch as [|item rest IH]; [reflexivity|].
  simpl. intros H. apply orb_false_iff in H. destruct H as [Hi Hr].
  destruct item; try (apply IH; exact Hr).
  unfold dict_has in Hi. destruct (dict_get (KStr key) entries); [discriminate|].
  apply IH; exact Hr.
Qed.

(** C6. A path that does not resolve returns the default: whenever the
    final batch is empty, and in particular whenever, at any depth, no item
    of the current batch is a mapping holding the key of the next step. *)
Theorem dget_default_when_unresolved :
  (forall (t : value) (p : str) (D : value) (commands : list command),
      read_path p = Ok commands ->
      process_commands commands [t] = Ok [] ->
      dget t p D = Ok D)
  /\ (forall (t : value) (p : str) (D : value)
             (before after : list command) (key : str) (batch : list value),
         read_path p = Ok (before ++ ThroughDictKey key :: after) ->
         process_commands before [t] = Ok batch ->
         key_reachable key batch = false ->
         dget t p D = Ok D).
Proof.
  split.
  - intros t p D commands Hp Hb. rewrite (dget_unfold _ _ D _ _ Hp Hb). reflexivity.
  - intros t p D before after key batch Hp Hb Hk.
    apply (dget_unfold _ _ D _ [] Hp).
    rewrite process_commands_app, Hb. simpl.
    rewrite (go_through_dict_key_unreachable _ _ Hk).
    apply process_commands_nil.
Qed.

Lemma dget_default_when_unresolved_witness :
  dget (VDict [(KStr (py "a"), VDict [])]) (py "a/b") (VInt 42) = Ok (VInt 42)
  /\ dget (VDict [(KStr (py "a"), VDict [])]) (py "a/b/c[0]") (VInt 42) = Ok (VInt 42).
Proof.
  split.
  - apply (proj1 dget_default_when_unresolved _ _ _
             [ThroughDictKey (py "a"); ThroughDictKey (py "b")]); reflexivity.
  - apply (proj2 dget_default_when_unresolved _ _ _
             [ThroughDictKey (py "a")]
             [ThroughDictKey (py "c"); ThroughListIndexed 0] (py "b")
             [VDict []]); reflexivity.
Defined.

(** ** Exceptions of [dget] *)





(** C2. The guard [len(item) > index] holds for every negative index, so a
    sequence shorter than the index reaches back is not dropped: reading it
    raises [IndexError], which [dget] lets through.  The index is resolved
    against the length of the sequence when it is within reach. *)
Theorem dget_short_sequence_raises :
  dget (VList [VInt 1; VInt 2; VInt 3]) (py "[-4]") VNone = Raise IndexError
  /\ dget (VList [VInt 1; VInt 2; VInt 3]) (py "[-1]") VNone = Ok (VInt 3)
  /\ dget (VDict [(KStr (py "a"), VList [])]) (py "a[-1]") VNone = Raise IndexError.
Proof. repeat split. Qed.

(** ** The legacy reader fails fast *)

Lemma dget2_loop_app (a b : list str) (data : value) :
  dget2_loop (a ++ b) data = (data' <- dget2_loop a data ;; dget2_loop b data').
Proof.
  revert data. induction a as [|key a IH]; intros data; [reflexivity|].
  simpl. destruct (dget2_step data key); simpl; [apply IH|reflexivity].
Qed.

(** C8. When the step of any segment raises [KeyError], [TypeError] or
    [IndexError], the remaining segments are not visited and [dget2]
    returns the default. *)
Theorem dget2_fail_fast (t : value) (p : str) (D : value)
        (before after : list str) (key : str) (data : value) (e : exn) :
  split (strip_slash p) = before ++ key :: after ->
  dget2_loop before t = Ok data ->
  dget2_step data key = Raise e ->
  e = KeyError \/ e = TypeError \/ e = IndexError ->
  dget2 t p D = Ok D.
Proof.
  intros Hs Hb Hk He. unfold dget2. rewrite Hs, dget2_loop_app, Hb. simpl.
  rewrite Hk. simpl.
  destruct He as [-> | [-> | ->]]; reflexivity.
Qed.

Lemma dget2_fail_fast_witness :
  dget2 (VDict [(KStr (py "a"),
                 VList [VDict [(KStr (py "b"), VInt 1)];
                        VDict [(KStr (py "c"), VInt 2)]])])
        (py "/a/b/d") (VInt 42)
  = Ok (VInt 42).
Proof.
  apply (dget2_fail_fast _ _ _ [py "a"] [py "d"] (py "b")
           (VList [VDict [(KStr (py "b"), VInt 1)]; VDict [(KStr (py "c"), VInt 2)]])
           KeyError); try reflexivity.
  left; reflexivity.
Defined.

(** ** The walker at a root sequence *)

(** C10, as stated, fails on the empty list: nothing is yielded and nothing
    is raised. *)
Lemma dwalk_empty_list_does_not_raise :
  dwalk (VList []) = ([], None) /\ snd (dwalk (VList [])) <> Some IndexError.
Proof. split; [reflexivity|discriminate]. Qed.

(** C10. A root list with at least one element raises [IndexError] at its
    first element, before any pair is yielded: the accumulated path has no
    last component to annotate. *)
Theorem dwalk_root_list_raises (first : value) (others : list value) :
  dwalk (VList (first :: others)) = ([], Some IndexError).
Proof. reflexivity. Qed.

(** ** Characters and runs *)

Lemma str_eqb_eq (a b : str) : str_eqb a b = true <-> a = b.
Proof. unfold str_eqb. destruct (list_eq_dec ascii_dec a b); split; congruence. Qed.


Lemma str_eqb_neq (a b : str) : str_eqb a b = false <-> a <> b.
Proof. unfold str_eqb. destruct (list_eq_dec ascii_dec a b); split; congruence. Qed.

Lemma digit_not_dash (c : ascii) : is_digit c = true -> Ascii.eqb c "-" = false.
Proof. destruct (Ascii.eqb_spec c "-") as [->|]; [discriminate|reflexivity]. Qed.

Lemma digit_not_star (c : ascii) : is_digit c = true -> Ascii.eqb c "*" = false.
Proof. destruct (Ascii.eqb_spec c "*") as [->|]; [discriminate|reflexivity]. Qed.

Lemma digit_not_slash (c : ascii) : is_digit c = true -> is_slash c = false.
Proof. unfold is_slash. destruct (Ascii.eqb_spec c "/") as [->|]; [discriminate|reflexivity]. Qed.

Lemma span_spec (p : ascii -> bool) (s a b : str) :
  span p s = (a, b) ->
  s = a ++ b /\ forallb p a = true /\ match b with [] => True | c :: _ => p c = false end.
Proof.
  revert a b. induction s as [|c s IH]; intros a b; simpl.
  - intros [= <- <-]. auto.
  - destruct (p c) eqn:Hc.
    + destruct (span p s) as [a' b'] eqn:E. intros [= <- <-].
      destruct (IH a' b' eq_refl) as (-> & Ha & Hb).
      simpl. rewrite Hc. auto.
    + intros [= <- <-]. simpl. auto.
Qed.

Lemma span_run (p : ascii -> bool) (a b : str) :
  forallb p a = true ->
  match b with [] => True | c :: _ => p c = false end ->
  span p (a ++ b) = (a, b).
Proof.
  intros Ha Hb. induction a as [|c a IH]; simpl.
  - destruct b as [|c b]; [reflexivity|]. simpl. rewrite Hb. reflexivity.
  - simpl in Ha. apply andb_true_iff in Ha. destruct Ha as [Hc Ha].
    rewrite Hc, (IH Ha). reflexivity.
Qed.

Lemma digits_inv (ds : str) :
  digits ds = true -> ds <> [] /\ forallb is_digit ds = true.
Proof. destruct ds; [discriminate|]. intros H. split; [discriminate|exact H]. Qed.

Lemma digits_intro (ds : str) : ds <> [] -> forallb is_digit ds = true -> digits ds = true.
Proof. destruct ds; [congruence|]. intros _ H. exact H. Qed.

Lemma strip_sign_text (negative : bool) (ds rest : str) :
  digits ds = true ->
  strip_sign (sign_text negative ++ ds ++ rest) = (negative, ds ++ rest).
Proof.
  intros Hd. destruct negative; [reflexivity|].
  destruct ds as [|d ds]; [discriminate|]. simpl in *.
  apply andb_true_iff in Hd. destruct Hd as [Hd _].
  rewrite (digit_not_dash _ Hd). reflexivity.
Qed.

Lemma strip_sign_inv (s : str) (negative : bool) (body : str) :
  strip_sign s = (negative, body) -> s = sign_text negative ++ body.
Proof.
  destruct s as [|c s]; simpl; [intros [= <- <-]; reflexivity|].
  destruct (Ascii.eqb_spec c "-") as [->|]; intros [= <- <-]; reflexivity.
Qed.

Lemma signed_digits_text (negative : bool) (ds rest : str) :
  digits ds = true ->
  signed_digits (sign_text negative ++ ds ++ "]" :: rest) = Some (negative, ds, rest).
Proof.
  intros Hd. unfold signed_digits. rewrite (strip_sign_text _ _ _ Hd).
  destruct (digits_inv _ Hd) as [Hne Hall].
  rewrite (span_run is_digit ds ("]" :: rest) Hall eq_refl).
  destruct ds; [congruence|]. reflexivity.
Qed.

Lemma signed_digits_inv (s : str) (negative : bool) (ds rest : str) :
  signed_digits s = Some (negative, ds, rest) ->
  digits ds = true /\ s = sign_text negative ++ ds ++ "]" :: rest.
Proof.
  unfold signed_digits. destruct (strip_sign s) as [neg body] eqn:Es.
  destruct (span is_digit body) as [run after] eqn:Er.
  apply strip_sign_inv in Es. apply span_spec in Er. destruct Er as (-> & Hall & _).
  destruct run as [|d run]; [discriminate|].
  destruct after as [|c after]; [discriminate|].
  destruct (Ascii.eqb_spec c "]") as [->|]; [|discriminate].
  intros [= <- <- <-]. split; [exact Hall|exact Es].
Qed.

(** ** Tokens *)

Lemma match_list_index_text (negative : bool) (ds rest : str) :
  digits ds = true ->
  match_list_index (index_text negative ds ++ rest) = Some (int_group negative ds).
Proof.
  intros Hd. unfold index_text. simpl.
  rewrite <- !app_assoc. simpl. rewrite (signed_digits_text _ _ _ Hd). reflexivity.
Qed.

Lemma match_list_index_inv (token : str) (index : Z) :
  match_list_index token = Some index -> begins_with_index token.
Proof.
  destruct token as [|c s]; [discriminate|]. simpl.
  destruct (Ascii.eqb_spec c "[") as [->|]; [|discriminate].
  destruct (signed_digits s) as [[[negative ds] rest]|] eqn:E; [|discriminate].
  intros _. apply signed_digits_inv in E. destruct E as [Hd ->].
  exists negative, ds, rest. split; [exact Hd|].
  unfold index_text. simpl. rewrite <- !app_assoc. reflexivity.
Qed.

Lemma index_text_not_star (negative : bool) (ds : str) :
  digits ds = true ->
  str_eqb (index_text negative ds) (py "*") = false
  /\ str_eqb (index_text negative ds) (py "[*]") = false.
Proof.
  intros Hd. split; apply str_eqb_neq; unfold index_text, py; simpl; [discriminate|].
  destruct negative; simpl; [discriminate|].
  destruct ds as [|d ds]; [discriminate|]. simpl in Hd.
  apply andb_true_iff in Hd. destruct Hd as [Hd _]. apply digit_not_star in Hd.
  intros [= -> _]. discriminate.
Qed.

Lemma make_command_index (negative : bool) (ds : str) :
  digits ds = true ->
  make_command (index_text negative ds) = ThroughListIndexed (int_group negative ds).
Proof.
  intros Hd. unfold make_command.
  destruct (index_text_not_star negative ds Hd) as [-> ->].
  rewrite <- (app_nil_r (index_text negative ds)).
  rewrite (match_list_index_text _ _ [] Hd). reflexivity.
Qed.

Lemma make_command_key (token : str) :
  token <> py "*" -> token <> py "[*]" -> ~ begins_with_index token ->
  make_command token = ThroughDictKey token.
Proof.
  intros H1 H2 H3. unfold make_command.
  apply str_eqb_neq in H1. apply str_eqb_neq in H2. rewrite H1, H2.
  destruct (match_list_index token) eqn:E; [|reflexivity].
  exfalso. apply H3. exact (match_list_index_inv _ _ E).
Qed.

Lemma bare_inv (token : str) :
  bare token = true ->
  token <> [] /\ forallb (fun c => negb (is_slash c) && negb (Ascii.eqb c "[")) token = true.
Proof. destruct token; [discriminate|]. intros H. split; [discriminate|exact H]. Qed.

Lemma bare_head (token : str) :
  bare token = true ->
  exists c rest, token = c :: rest /\ is_slash c = false /\ Ascii.eqb c "[" = false.
Proof.
  destruct token as [|c rest]; [discriminate|]. simpl. intros H.
  apply andb_true_iff in H. destruct H as [H _].
  apply andb_true_iff in H. destruct H as [Ha Hb].
  exists c, rest. repeat split; [destruct (is_slash c)|destruct (Ascii.eqb c "[")];
    simpl in *; congruence.
Qed.

Lemma make_command_bare (token : str) :
  bare token = true ->
  make_command token
  = if str_eqb token (py "*") then ThroughDictFlat else ThroughDictKey token.
Proof.
  intros Hb. unfold make_command.
  destruct (str_eqb token (py "*")) eqn:E1; [reflexivity|].
  destruct (bare_head _ Hb) as (c & rest & -> & _ & Hc).
  assert (str_eqb (c :: rest) (py "[*]") = false) as ->.
  { apply str_eqb_neq. intros [= -> _]. discriminate. }
  simpl. rewrite Hc. reflexivity.
Qed.

(** ** Splitting and joining *)

Lemma split_nonempty (s : str) : split s <> [].
Proof.
  induction s as [|c s IH]; simpl; [discriminate|].
  destruct (is_slash c); [discriminate|]. destruct (split s); [congruence|discriminate].
Qed.

Lemma split_app_slash (a b : str) : split (a ++ "/" :: b) = split a ++ split b.
Proof.
  induction a as [|c a IH]; [reflexivity|].
  simpl. destruct (is_slash c); [rewrite IH; reflexivity|].
  rewrite IH. destruct (split a) as [|w ws] eqn:E; [|reflexivity].
  exfalso. exact (split_nonempty a E).
Qed.

Lemma split_no_slash (s : str) : no_slash s = true -> split s = [s].
Proof.
  induction s as [|c s IH]; [reflexivity|].
  simpl. intros H. apply andb_true_iff in H. destruct H as [Hc Hs].
  destruct (is_slash c); [discriminate|]. rewrite (IH Hs). reflexivity.
Qed.

Lemma no_slash_app (a b : str) : no_slash (a ++ b) = no_slash a && no_slash b.
Proof. apply forallb_app. Qed.

Lemma bare_no_slash (token : str) : bare token = true -> no_slash token = true.
Proof.
  intros H. destruct (bare_inv _ H) as [_ Hall]. clear H.
  induction token as [|c t IH]; [reflexivity|].
  simpl in *. apply andb_true_iff in Hall. destruct Hall as [Hc Ht].
  apply andb_true_iff in Hc. destruct Hc as [Hc _]. rewrite Hc. exact (IH Ht).
Qed.

Lemma digits_no_slash (ds : str) : forallb is_digit ds = true -> no_slash ds = true.
Proof.
  induction ds as [|d ds IH]; [reflexivity|].
  simpl. intros H. apply andb_true_iff in H. destruct H as [Hd Hs].
  rewrite (digit_not_slash _ Hd). exact (IH Hs).
Qed.

Lemma index_text_no_slash (negative : bool) (ds : str) :
  digits ds = true -> no_slash (index_text negative ds) = true.
Proof.
  intros Hd. destruct (digits_inv _ Hd) as [_ Hall].
  unfold index_text. change (no_slash ("[" :: ?s)) with (no_slash s).
  rewrite !no_slash_app, (digits_no_slash _ Hall). destruct negative; reflexivity.
Qed.

(** ** The rewriting of brackets *)

Lemma sub_scan_copy (n : nat) (s : str) :
  sub_scan n s = firstn n s ++ sub_scan 0 (skipn n s).
Proof.
  revert s. induction n as [|n IH]; intros s; [reflexivity|].
  destruct s as [|c s]; [reflexivity|]. simpl. rewrite IH. reflexivity.
Qed.

(** The substitution, one match at a time: the character before a bracket
    is followed by a slash and the text of the bracket, and the scan goes
    on after the bracket. *)
Lemma separate_brackets_step (c : ascii) (rest : str) :
  separate_brackets (c :: rest)
  = if is_slash c then c :: separate_brackets rest
    else match bracket_length rest with
         | Some n => c :: "/" :: firstn n rest ++ separate_brackets (skipn n rest)
         | None => c :: separate_brackets rest
         end.
Proof.
  unfold separate_brackets. simpl. destruct (is_slash c); [reflexivity|].
  destruct (bracket_length rest) as [n|]; [|reflexivity].
  rewrite sub_scan_copy. reflexivity.
Qed.

Lemma span_app_stop (p : ascii -> bool) (s : str) (c : ascii) (b : str) :
  p c = false ->
  span p (s ++ c :: b) = (fst (span p s), snd (span p s) ++ c :: b).
Proof.
  intros Hc. induction s as [|x s IH]; simpl; [rewrite Hc; reflexivity|].
  destruct (p x); [|reflexivity].
  rewrite IH. destruct (span p s). reflexivity.
Qed.

Lemma signed_digits_app_slash (s b : str) :
  signed_digits (s ++ "/" :: b)
  = match signed_digits s with
    | Some (negative, ds, rest) => Some (negative, ds, rest ++ "/" :: b)
    | None => None
    end.
Proof.
  unfold signed_digits.
  assert (strip_sign (s ++ "/" :: b)
          = (fst (strip_sign s), snd (strip_sign s) ++ "/" :: b)) as ->.
  { destruct s as [|c s]; [reflexivity|]. simpl.
    destruct (Ascii.eqb c "-"); reflexivity. }
  destruct (strip_sign s) as [negative body]. simpl.
  rewrite (span_app_stop is_digit body "/" b eq_refl).
  destruct (span is_digit body) as [ds after]. simpl.
  destruct ds as [|d ds]; [reflexivity|].
  destruct after as [|c after]; [reflexivity|]. simpl.
  destruct (Ascii.eqb c "]"); reflexivity.
Qed.

Lemma bracket_length_cons (c : ascii) (body : str) :
  bracket_length (c :: body)
  = if Ascii.eqb c "[" then
      if str_eqb (firstn 2 body) (py "*]") then Some 3%nat
      else match signed_digits body with
           | Some (negative, ds, _) =>
               Some (S ((if negative then 1 else 0) + length ds + 1))%nat
           | None => None
           end
    else None.
Proof. reflexivity. Qed.

Lemma bracket_length_app_slash (s b : str) :
  bracket_length (s ++ "/" :: b) = bracket_length s.
Proof.
  destruct s as [|c s]; [reflexivity|].
  rewrite <- app_comm_cons, !bracket_length_cons.
  destruct (Ascii.eqb c "["); [|reflexivity].
  assert (str_eqb (firstn 2 (s ++ "/" :: b)) (py "*]") = str_eqb (firstn 2 s) (py "*]")) as ->.
  { destruct s as [|x [|y s]]; [| |reflexivity].
    - transitivity false; [apply str_eqb_neq|symmetry; apply str_eqb_neq].
      + destruct b; discriminate.
      + discriminate.
    - transitivity false; [apply str_eqb_neq|symmetry; apply str_eqb_neq];
        discriminate. }
  destruct (str_eqb (firstn 2 s) (py "*]")); [reflexivity|].
  rewrite signed_digits_app_slash.
  destruct (signed_digits s) as [[[negative ds] rest]|]; reflexivity.
Qed.

Lemma bracket_length_bound (s : str) (n : nat) :
  bracket_length s = Some n -> (n <= length s)%nat.
Proof.
  destruct s as [|c s]; [discriminate|]. rewrite bracket_length_cons.
  destruct (Ascii.eqb c "["); [|discriminate].
  destruct (str_eqb (firstn 2 s) (py "*]")) eqn:E.
  - apply str_eqb_eq in E. intros [= <-].
    destruct s as [|x [|y s]]; try discriminate. simpl. lia.
  - destruct (signed_digits s) as [[[negative ds] rest]|] eqn:Es; [|discriminate].
    intros [= <-]. apply signed_digits_inv in Es. destruct Es as [_ ->].
    simpl. rewrite !length_app. simpl. destruct negative; simpl; lia.
Qed.

(** The rewriting never looks across a slash: the steps of a path are
    rewritten one by one. *)
Lemma separate_brackets_app_slash (a b : str) :
  separate_brackets (a ++ "/" :: b)
  = separate_brackets a ++ "/" :: separate_brackets b.
Proof.
  unfold separate_brackets.
  remember (length a) as n eqn:Hn.
  assert (length a <= n)%nat as Hle by lia. clear Hn.
  revert a Hle. induction n as [|n IH]; intros a Hle.
  - destruct a; [reflexivity|simpl in Hle; lia].
  - destruct a as [|c a]; [reflexivity|]. simpl in Hle. simpl.
    destruct (is_slash c); [rewrite IH by lia; reflexivity|].
    rewrite bracket_length_app_slash.
    destruct (bracket_length a) as [m|] eqn:Em; [|rewrite IH by lia; reflexivity].
    pose proof (bracket_length_bound _ _ Em) as Hm.
    rewrite (sub_scan_copy m (a ++ "/" :: b)), (sub_scan_copy m a).
    rewrite firstn_app, skipn_app.
    replace (m - length a)%nat with 0%nat by lia. simpl.
    rewrite app_nil_r, IH, <- app_assoc; [reflexivity|].
    rewrite length_skipn. lia.
Qed.

Lemma compile_app_slash (a b : str) : compile (a ++ "/" :: b) = compile a ++ compile b.
Proof.
  unfold compile. rewrite separate_brackets_app_slash, split_app_slash, map_app.
  reflexivity.
Qed.

Lemma bracket_length_index (negative : bool) (ds rest : str) :
  digits ds = true ->
  bracket_length (index_text negative ds ++ rest) = Some (length (index_text negative ds)).
Proof.
  intros Hd. unfold index_text. rewrite <- app_comm_cons, bracket_length_cons.
  change (Ascii.eqb "[" "[") with true. cbv iota.
  assert (str_eqb (firstn 2 ((sign_text negative ++ ds ++ ["]"]) ++ rest)) (py "*]") = false)
    as ->.
  { apply str_eqb_neq. destruct negative; simpl.
    - discriminate.
    - destruct ds as [|d ds]; [discriminate|]. simpl in *.
      apply andb_true_iff in Hd. destruct Hd as [Hd _]. apply digit_not_star in Hd.
      simpl. intros H. injection H as H _. subst d. discriminate Hd. }
  rewrite <- !app_assoc. simpl. rewrite (signed_digits_text _ _ _ Hd).
  rewrite !length_app. simpl. destruct negative; simpl; f_equal; lia.
Qed.

Lemma bracket_length_not_bracket (c : ascii) (s : str) :
  Ascii.eqb c "[" = false -> bracket_length (c :: s) = None.
Proof. intros H. rewrite bracket_length_cons, H. reflexivity. Qed.

(** A text without opening bracket is left as it is. *)
Lemma separate_brackets_plain (s : str) :
  forallb (fun c => negb (Ascii.eqb c "[")) s = true -> separate_brackets s = s.
Proof.
  unfold separate_brackets. induction s as [|c s IH]; [reflexivity|].
  simpl. intros H. apply andb_true_iff in H. destruct H as [_ Hs].
  specialize (IH Hs).
  assert (bracket_length s = None) as ->.
  { destruct s as [|x s]; [reflexivity|]. simpl in Hs.
    apply andb_true_iff in Hs. destruct Hs as [Hx _].
    apply bracket_length_not_bracket. destruct (Ascii.eqb x "["); [discriminate|reflexivity]. }
  rewrite IH. destruct (is_slash c); reflexivity.
Qed.

(** A bracket right after a bare key is set apart as a step of its own. *)
Lemma separate_brackets_after_key (token bracket : str) :
  bare token = true ->
  bracket_length bracket = Some (length bracket) ->
  separate_brackets (token ++ bracket) = token ++ "/" :: bracket.
Proof.
  unfold separate_brackets. intros Hb Hl.
  destruct (bare_inv _ Hb) as [Hne Hall]. clear Hb.
  induction token as [|c token IH]; [congruence|].
  simpl in Hall. apply andb_true_iff in Hall. destruct Hall as [Hc Hall].
  apply andb_true_iff in Hc. destruct Hc as [Hs Hk].
  simpl. destruct (is_slash c); [discriminate|].
  destruct token as [|x token].
  - simpl. rewrite Hl, sub_scan_copy, firstn_all, skipn_all. simpl.
    rewrite app_nil_r. reflexivity.
  - assert (bracket_length ((x :: token) ++ bracket) = None) as ->.
    { simpl in Hall. apply andb_true_iff in Hall. destruct Hall as [Hx _].
      apply andb_true_iff in Hx. destruct Hx as [_ Hx].
      apply bracket_length_not_bracket. destruct (Ascii.eqb x "["); [discriminate|reflexivity]. }
    rewrite IH; [reflexivity|discriminate|exact Hall].
Qed.

Lemma bare_no_bracket (token : str) :
  bare token = true -> forallb (fun c => negb (Ascii.eqb c "[")) token = true.
Proof.
  intros H. destruct (bare_inv _ H) as [_ Hall]. clear H.
  induction token as [|c t IH]; [reflexivity|].
  simpl in *. apply andb_true_iff in Hall. destruct Hall as [Hc Ht].
  apply andb_true_iff in Hc. destruct Hc as [_ Hc]. rewrite Hc. exact (IH Ht).
Qed.

Lemma compile_bare (token : str) :
  bare token = true -> compile token = [make_command token].
Proof.
  intros Hb. unfold compile.
  rewrite (separate_brackets_plain _ (bare_no_bracket _ Hb)).
  rewrite (split_no_slash _ (bare_no_slash _ Hb)). reflexivity.
Qed.

Lemma compile_indexed (token : str) (negative : bool) (ds : str) :
  bare token = true -> digits ds = true ->
  compile (token ++ index_text negative ds)
  = [make_command token; ThroughListIndexed (int_group negative ds)].
Proof.
  intros Hb Hd. unfold compile.
  rewrite (separate_brackets_after_key token (index_text negative ds) Hb).
  - rewrite split_app_slash, (split_no_slash _ (bare_no_slash _ Hb)).
    rewrite (split_no_slash _ (index_text_no_slash negative ds Hd)).
    simpl. rewrite (make_command_index _ _ Hd). reflexivity.
  - rewrite <- (app_nil_r (index_text negative ds)) at 1.
    apply bracket_length_index. exact Hd.
Qed.

(** C7, as stated, fails on a token that starts with a bracketed integer
    and goes on: it is not a lone bracketed integer, yet it does not become
    the key of its literal text. *)
Lemma read_path_index_prefix_counterexample :
  read_path (py "[0]x") = Ok [ThroughListIndexed 0]
  /\ make_command (py "[0]x") <> ThroughDictKey (py "[0]x").
Proof. split; [reflexivity|discriminate]. Qed.

(** C7. For a non-empty path: one leading slash is stripped; the steps
    between slashes compile one after the other; a step made of a bare key
    and a bracketed signed integer gives the command of the key, then
    [ThroughListIndexed]; and a token is [*], [[*]], a lone bracketed
    signed integer or, when it does not start with a bracketed signed
    integer, the key of its literal text. *)
Theorem read_path_compiles :
  (forall p : str, p <> [] -> read_path p = Ok (compile (strip_slash p)))
  /\ read_path (py "//a") = Ok [ThroughDictKey []; ThroughDictKey (py "a")]
  /\ (forall a b : str, compile (a ++ "/" :: b) = compile a ++ compile b)
  /\ (forall (token : str) (negative : bool) (ds : str),
         bare token = true -> digits ds = true ->
         compile (token ++ index_text negative ds)
         = [if str_eqb token (py "*") then ThroughDictFlat else ThroughDictKey token;
            ThroughListIndexed (int_group negative ds)])
  /\ make_command (py "*") = ThroughDictFlat
  /\ make_command (py "[*]") = ThroughListFlat
  /\ (forall (negative : bool) (ds : str),
         digits ds = true ->
         make_command (index_text negative ds) = ThroughListIndexed (int_group negative ds))
  /\ (forall token : str,
         token <> py "*" -> token <> py "[*]" -> ~ begins_with_index token ->
         make_command token = ThroughDictKey token).
Proof.
  split; [|split; [|split; [|split; [|split; [|split; [|split]]]]]].
  - intros [|c rest] Hp; [congruence|reflexivity].
  - reflexivity.
  - exact compile_app_slash.
  - intros token negative ds Hb Hd.
    rewrite (compile_indexed _ _ _ Hb Hd), (make_command_bare _ Hb). reflexivity.
  - reflexivity.
  - reflexivity.
  - exact make_command_index.
  - exact make_command_key.
Qed.

Lemma read_path_compiles_witness :
  read_path (py "/a[0]") = Ok (compile (py "a[0]"))
  /\ compile (py "users[-12]") = [ThroughDictKey (py "users"); ThroughListIndexed (-12)]
  /\ compile (py "*[3]") = [ThroughDictFlat; ThroughListIndexed 3]
  /\ make_command (py "[7]") = ThroughListIndexed 7
  /\ make_command (py "[x]") = ThroughDictKey (py "[x]").
Proof.
  destruct read_path_compiles as (Hstrip & _ & _ & Hstep & _ & _ & Hindex & Hkey).
  split; [|split; [|split; [|split]]].
  - apply (Hstrip (py "/a[0]")). discriminate.
  - apply (Hstep (py "users") true (py "12")); reflexivity.
  - apply (Hstep (py "*") false (py "3")); reflexivity.
  - apply (Hindex false (py "7")). reflexivity.
  - apply (Hkey (py "[x]")); [discriminate|discriminate|].
    intros (negative & ds & rest & Hd & Heq).
    destruct negative; [discriminate|].
    destruct ds as [|d ds]; [discriminate|].
    injection Heq as Hx _. subst d. discriminate.
Defined.

(** ** Induction on values *)

Lemma value_ind_nested (P : value -> Prop) :
  P VNone ->
  (forall b, P (VBool b)) ->
  (forall z, P (VInt z)) ->
  (forall s, P (VStr s)) ->
  (forall items, Forall P items -> P (VList items)) ->
  (forall entries, Forall (fun entry => P (snd entry)) entries -> P (VDict entries)) ->
  forall v, P v.
Proof.
  intros HN HB HI HS HL HD. fix IH 1. intros [ | b | z | s | items | entries].
  - exact HN.
  - apply HB.
  - apply HI.
  - apply HS.
  - apply HL. induction items as [|x xs IHxs]; constructor; [apply IH|exact IHxs].
  - apply HD. induction entries as [|[k x] es IHes]; constructor; [apply IH|exact IHes].
Qed.

(** ** The text of an index reads back as the index *)

Lemma uint_chars_digits (d : uint) : forallb is_digit (uint_chars d) = true.
Proof. induction d; simpl; auto. Qed.

Lemma uint_chars_value (d : uint) (acc : nat) :
  fold_left (fun a c => 10 * a + digit_value c) (uint_chars d) (Z.of_nat acc)
  = Z.of_nat (Nat.of_uint_acc d acc).
Proof.
  revert acc. induction d as [|d IH|d IH|d IH|d IH|d IH|d IH|d IH|d IH|d IH|d IH];
    intros acc; [reflexivity|..]; cbn [uint_chars fold_left Nat.of_uint_acc];
    rewrite <- IH; f_equal; rewrite Nat.tail_mul_spec;
    unfold digit_value;
    match goal with
    | |- context [Z.of_N (N_of_ascii ?c)] =>
        let v := eval vm_compute in (Z.of_N (N_of_ascii c)) in
        change (Z.of_N (N_of_ascii c)) with v
    end; lia.
Qed.

Lemma to_uint_not_nil (n : nat) : Nat.to_uint n <> Nil.
Proof.
  intros E. pose proof (Unsigned.of_to n) as H. rewrite E in H. simpl in H.
  subst n. discriminate E.
Qed.

Lemma format_index_digits (index : nat) : digits (format_index index) = true.
Proof.
  apply digits_intro; [|apply uint_chars_digits].
  unfold format_index. pose proof (to_uint_not_nil index) as H.
  destruct (Nat.to_uint index); [congruence|..]; discriminate.
Qed.

Lemma format_index_value (index : nat) :
  int_group false (format_index index) = Z.of_nat index.
Proof.
  unfold int_group, digits_value, format_index.
  change 0 with (Z.of_nat 0).
  rewrite (uint_chars_value (Nat.to_uint index) 0).
  change (Nat.of_uint_acc (Nat.to_uint index) 0) with (Nat.of_uint (Nat.to_uint index)).
  rewrite Unsigned.of_to. reflexivity.
Qed.

(** ** Joined paths *)

Lemma join_cons (p : str) (parts : list str) :
  parts <> [] -> join (p :: parts) = p ++ "/" :: join parts.
Proof. destruct parts; [congruence|reflexivity]. Qed.



Lemma plain_key_inv (key : str) :
  plain_key key = true -> bare key = true /\ key <> py "*".
Proof.
  unfold plain_key. intros H. apply andb_true_iff in H. destruct H as [Hb Hs].
  split; [exact Hb|]. apply str_eqb_neq. destruct (str_eqb key (py "*")); [discriminate|reflexivity].
Qed.

Lemma compile_plain_key (key : str) :
  plain_key key = true -> compile key = [ThroughDictKey key].
Proof.
  intros H. destruct (plain_key_inv _ H) as [Hb Hs].
  rewrite (compile_bare _ Hb), (make_command_bare _ Hb).
  apply str_eqb_neq in Hs. rewrite Hs. reflexivity.
Qed.



(** ** Mappings *)

Lemma pykey_eqb_eq (a b : pykey) : pykey_eqb a b = true <-> a = b.
Proof.
  destruct a as [s|x], b as [t|y]; simpl; try (split; [discriminate|congruence]).
  - rewrite str_eqb_eq. split; congruence.
  - rewrite Z.eqb_eq. split; congruence.
Qed.

Lemma pykey_eqb_refl (a : pykey) : pykey_eqb a a = true.
Proof. apply pykey_eqb_eq. reflexivity. Qed.

Lemma dict_get_in (key : pykey) (x : value) (d : dict) :
  unique_keys d = true -> In (key, x) d -> dict_get key d = Some x.
Proof.
  induction d as [|[k v] d IH]; [contradiction|].
  simpl. intros Hu Hin. apply andb_true_iff in Hu. destruct Hu as [Hk Hu].
  destruct Hin as [[= -> ->]|Hin]; [rewrite pykey_eqb_refl; reflexivity|].
  specialize (IH Hu Hin).
  destruct (pykey_eqb key k) eqn:E; [|exact IH].
  apply pykey_eqb_eq in E. subst k. unfold dict_has in Hk. rewrite IH in Hk. discriminate.
Qed.

(** ** Generators *)

Lemma then_yield_in (a b : yielded) (q : str * value) :
  In q (fst (then_yield a b)) -> In q (fst a) \/ In q (fst b).
Proof.
  destruct a as [pairs [e|]]; simpl; [auto|]. intros H. apply in_app_or in H. exact H.
Qed.


Lemma yield_from_all_in (generators : list yielded) (q : str * value) :
  In q (fst (yield_from_all generators)) ->
  exists g, In g generators /\ In q (fst g).
Proof.
  induction generators as [|g gs IH]; simpl; [contradiction|].
  intros H. apply then_yield_in in H. destruct H as [H|H]; [eauto|].
  destruct (IH H) as (g' & Hg & Hq). eauto.
Qed.


Lemma enumerate_with_in {A B} (f : nat -> A -> B) (start : nat) (xs : list A) (y : B) :
  In y (enumerate_with f start xs) ->
  exists n x, nth_error xs n = Some x /\ y = f (start + n)%nat x.
Proof.
  revert start. induction xs as [|x xs IH]; intros start; simpl; [contradiction|].
  intros [<-|H].
  - exists 0%nat, x. rewrite Nat.add_0_r. auto.
  - destruct (IH _ H) as (n & x' & Hn & ->). exists (S n), x'.
    rewrite Nat.add_succ_r. auto.
Qed.

(** ** Paths of the walker read back *)

Lemma str_components_strs (parts : list str) :
  str_components (map KStr parts) = Some parts.
Proof. induction parts as [|p parts IH]; [reflexivity|]. simpl. rewrite IH. reflexivity. Qed.

Lemma annotate_last_key (parts : list str) (key : str) (index : nat) :
  annotate_last (map KStr (parts ++ [key])) index
  = Ok (map KStr (parts ++ [key ++ index_text false (format_index index)])).
Proof.
  unfold annotate_last. rewrite !map_app, rev_app_distr. simpl.
  rewrite rev_involutive. reflexivity.
Qed.

Lemma py_index_at {A} (xs : list A) (n : nat) (x : A) :
  nth_error xs n = Some x -> py_index xs (Z.of_nat n) = Some x.
Proof.
  intros H. assert (n < length xs)%nat as Hn by (apply nth_error_Some; congruence).
  unfold py_index, py_position.
  destruct (Z.leb_spec 0 (Z.of_nat n)); [|lia].
  destruct (Z.ltb_spec (Z.of_nat n) (Z.of_nat (length xs))); [|lia].
  rewrite Nat2Z.id. exact H.
Qed.










(** ** Paths made of keys and indexed keys *)

Lemma word_or_star_bare_char (c : ascii) :
  is_word_or_star c = true -> negb (is_slash c) && negb (Ascii.eqb c "[") = true.
Proof.
  unfold is_slash.
  destruct (Ascii.eqb_spec c "/") as [->|]; [discriminate|].
  destruct (Ascii.eqb_spec c "[") as [->|]; [discriminate|reflexivity].
Qed.

Lemma word_key_inv (key : str) :
  word_key key = true ->
  key <> [] /\ forallb is_word_or_star key = true /\ plain_key key = true.
Proof.
  destruct key as [|c key]; [discriminate|]. unfold word_key. intros H.
  apply andb_true_iff in H. destruct H as [Hall Hs].
  split; [discriminate|]. split; [exact Hall|].
  unfold plain_key. rewrite Hs, andb_true_r. unfold bare.
  revert Hall. generalize (c :: key). intros s Hall.
  induction s as [|x s IH]; [reflexivity|].
  simpl in *. apply andb_true_iff in Hall. destruct Hall as [Hx Hall].
  rewrite (word_or_star_bare_char _ Hx). exact (IH Hall).
Qed.

Lemma step_key_plain (s : step) :
  step_ok s = true ->
  plain_key match s with Key key | KeyAt key _ _ => key end = true.
Proof.
  destruct s as [key|key negative ds]; simpl; [auto|].
  intros H. apply andb_true_iff in H. destruct H as [H _].
  exact (proj2 (proj2 (word_key_inv _ H))).
Qed.

Lemma compile_step (s : step) : step_ok s = true -> compile (step_text s) = step_commands s.
Proof.
  intros H. pose proof (step_key_plain _ H) as Hk.
  destruct s as [key|key negative ds]; simpl in *.
  - exact (compile_plain_key _ Hk).
  - apply andb_true_iff in H. destruct H as [_ Hd].
    destruct (plain_key_inv _ Hk) as [Hb Hs].
    rewrite (compile_indexed _ _ _ Hb Hd), (make_command_bare _ Hb).
    apply str_eqb_neq in Hs. rewrite Hs. reflexivity.
Qed.

Lemma step_text_no_slash (s : step) : step_ok s = true -> no_slash (step_text s) = true.
Proof.
  intros H. pose proof (step_key_plain _ H) as Hk.
  destruct (plain_key_inv _ Hk) as [Hb _].
  destruct s as [key|key negative ds]; simpl in *.
  - exact (bare_no_slash _ Hb).
  - apply andb_true_iff in H. destruct H as [_ Hd].
    rewrite no_slash_app, (bare_no_slash _ Hb), (index_text_no_slash _ _ Hd). reflexivity.
Qed.

Lemma step_text_head (s : step) :
  step_ok s = true ->
  exists c rest, step_text s = c :: rest /\ is_slash c = false.
Proof.
  intros H. pose proof (step_key_plain _ H) as Hk.
  destruct (plain_key_inv _ Hk) as [Hb _].
  destruct (bare_head _ Hb) as (c & rest & E & Hs & _).
  destruct s as [key|key negative ds]; simpl in *; subst key.
  - exists c, rest. auto.
  - exists c, (rest ++ index_text negative ds). auto.
Qed.

Lemma compile_steps (steps : list step) :
  steps <> [] -> forallb step_ok steps = true ->
  compile (join (map step_text steps)) = flat_map step_commands steps.
Proof.
  induction steps as [|s steps IH]; [congruence|]. intros _ H.
  simpl in H. apply andb_true_iff in H. destruct H as [Hs Hrest].
  destruct steps as [|s' steps].
  - simpl. rewrite app_nil_r. exact (compile_step _ Hs).
  - change (map step_text (s :: s' :: steps))
      with (step_text s :: map step_text (s' :: steps)).
    rewrite join_cons by discriminate.
    rewrite compile_app_slash, (compile_step _ Hs), IH by (discriminate || exact Hrest).
    reflexivity.
Qed.

Lemma split_steps (steps : list step) :
  steps <> [] -> forallb step_ok steps = true ->
  split (join (map step_text steps)) = map step_text steps.
Proof.
  induction steps as [|s steps IH]; [congruence|]. intros _ H.
  simpl in H. apply andb_true_iff in H. destruct H as [Hs Hrest].
  destruct steps as [|s' steps].
  - simpl. exact (split_no_slash _ (step_text_no_slash _ Hs)).
  - change (map step_text (s :: s' :: steps))
      with (step_text s :: map step_text (s' :: steps)).
    rewrite join_cons by discriminate.
    rewrite split_app_slash, (split_no_slash _ (step_text_no_slash _ Hs)),
      IH by (discriminate || exact Hrest).
    reflexivity.
Qed.

Lemma join_steps_head (steps : list step) :
  steps <> [] -> forallb step_ok steps = true ->
  exists c rest, join (map step_text steps) = c :: rest /\ is_slash c = false.
Proof.
  destruct steps as [|s steps]; [congruence|]. intros _ H.
  simpl in H. apply andb_true_iff in H. destruct H as [Hs _].
  destruct (step_text_head _ Hs) as (c & rest & E & Hc).
  destruct steps as [|s' steps].
  - exists c, rest. simpl. auto.
  - change (map step_text (s :: s' :: steps))
      with (step_text s :: map step_text (s' :: steps)).
    rewrite join_cons by discriminate. rewrite E.
    exists c, (rest ++ "/" :: join (map step_text (s' :: steps))). auto.
Qed.

Lemma strip_slash_path_text (leading_slash : bool) (steps : list step) :
  steps <> [] -> forallb step_ok steps = true ->
  strip_slash (path_text leading_slash steps) = join (map step_text steps).
Proof.
  intros Hne Hok. destruct (join_steps_head _ Hne Hok) as (c & rest & E & Hc).
  unfold path_text. rewrite E. destruct leading_slash; simpl; [reflexivity|].
  rewrite Hc. reflexivity.
Qed.

Lemma read_path_steps (leading_slash : bool) (steps : list step) :
  steps <> [] -> forallb step_ok steps = true ->
  read_path (path_text leading_slash steps) = Ok (flat_map step_commands steps).
Proof.
  intros Hne Hok. rewrite <- (compile_steps _ Hne Hok).
  destruct (join_steps_head _ Hne Hok) as (c & rest & E & Hc).
  unfold path_text. rewrite E. destruct leading_slash; simpl; [reflexivity|].
  rewrite Hc. reflexivity.
Qed.

Lemma flat_map_step_commands_no_flat (steps : list step) :
  has_flat (flat_map step_commands steps) = false.
Proof.
  induction steps as [|s steps IH]; [reflexivity|].
  simpl. unfold has_flat in *. rewrite existsb_app, IH. destruct s; reflexivity.
Qed.

(** ** Repetition references of such segments *)

Lemma repetition_at_needs_bracket (s : str) :
  forallb (fun c => negb (Ascii.eqb c "[")) s = true -> repetition_at s = None.
Proof.
  intros H. unfold repetition_at.
  destruct (span is_word_or_star s) as [name after] eqn:E.
  apply span_spec in E. destruct E as (-> & _ & _).
  rewrite forallb_app in H. apply andb_true_iff in H. destruct H as [_ H].
  destruct name as [|n name]; [reflexivity|].
  destruct after as [|c inner]; [reflexivity|].
  simpl in H. apply andb_true_iff in H. destruct H as [H _].
  destruct (Ascii.eqb c "["); [discriminate|reflexivity].
Qed.

Lemma repetition_search_needs_bracket (s : str) :
  forallb (fun c => negb (Ascii.eqb c "[")) s = true -> repetition_search s = None.
Proof.
  induction s as [|c s IH]; [reflexivity|]. intros H.
  cbn [repetition_search]. rewrite (repetition_at_needs_bracket _ H).
  simpl in H. apply andb_true_iff in H. destruct H as [_ H]. exact (IH H).
Qed.

Lemma get_repetition_index_key (key : str) :
  plain_key key = true -> _get_repetition_index key = Ok None.
Proof.
  intros H. destruct (plain_key_inv _ H) as [Hb _].
  unfold _get_repetition_index.
  rewrite (repetition_search_needs_bracket _ (bare_no_bracket _ Hb)). reflexivity.
Qed.

Lemma digit_or_dash_sign (negative : bool) (ds : str) :
  forallb is_digit ds = true ->
  forallb is_digit_or_dash (sign_text negative ++ ds) = true.
Proof.
  intros H. rewrite forallb_app. apply andb_true_iff. split.
  - destruct negative; reflexivity.
  - clear negative. induction ds as [|d ds IH]; [reflexivity|].
    simpl in *. apply andb_true_iff in H. destruct H as [Hd H].
    unfold is_digit_or_dash at 1. rewrite Hd. exact (IH H).
Qed.

Lemma py_int_text (negative : bool) (ds : str) :
  digits ds = true -> py_int (sign_text negative ++ ds) = Some (int_group negative ds).
Proof.
  intros Hd. unfold py_int.
  rewrite <- (app_nil_r ds) at 1. rewrite (strip_sign_text _ _ _ Hd), app_nil_r.
  destruct (digits_inv _ Hd) as [Hne Hall].
  destruct ds; [congruence|]. rewrite Hall. reflexivity.
Qed.

Lemma get_repetition_index_key_at (key : str) (negative : bool) (ds : str) :
  word_key key = true -> digits ds = true ->
  _get_repetition_index (key ++ index_text negative ds)
  = Ok (Some (key, int_group negative ds)).
Proof.
  intros Hk Hd. destruct (word_key_inv _ Hk) as (Hne & Hall & _).
  destruct (digits_inv _ Hd) as [Hdne Hdall].
  unfold _get_repetition_index.
  assert (repetition_search (key ++ index_text negative ds)
          = Some (key, sign_text negative ++ ds)) as ->.
  { destruct key as [|c key]; [congruence|].
    change ((c :: key) ++ index_text negative ds)
      with (c :: (key ++ index_text negative ds)).
    cbn [repetition_search].
    change (c :: (key ++ index_text negative ds))
      with ((c :: key) ++ index_text negative ds).
    unfold repetition_at.
    rewrite (span_run is_word_or_star (c :: key) (index_text negative ds) Hall eq_refl).
    unfold index_text. change (Ascii.eqb "[" "[") with true. cbv iota.
    rewrite app_assoc.
    rewrite (span_run is_digit_or_dash (sign_text negative ++ ds) ["]"]
               (digit_or_dash_sign _ _ Hdall) eq_refl).
    destruct (sign_text negative ++ ds) eqn:E; [|reflexivity].
    apply app_eq_nil in E. destruct E as [_ E]. congruence. }
  rewrite (py_int_text _ _ Hd). reflexivity.
Qed.

(** ** The two readers along such a path *)

Lemma flatdget_index (data : value) (index : Z) :
  _flatdget data (KInt index) = getitem data (KInt index).
Proof. destruct data; reflexivity. Qed.

Lemma go_through_list_index_one (index : Z) (x : value) (batch : list value) :
  go_through_list_index index [x] = Ok batch ->
  batch = [] \/ exists y, batch = [y] /\ getitem x (KInt index) = Ok y.
Proof.
  simpl. destruct (as_sequence x) as [xs|] eqn:Ex; [|intros [= <-]; auto].
  destruct (Z.of_nat (length xs) >? index); [|intros [= <-]; auto].
  destruct (py_index xs index) as [y|] eqn:Ey; [|discriminate].
  simpl. intros [= <-]. right. exists y. split; [reflexivity|].
  destruct x; try discriminate; simpl in Ex; injection Ex as <-;
    simpl; rewrite Ey; reflexivity.
Qed.

Lemma go_through_dict_key_one (key : str) (t : value) :
  go_through_dict_key key [t] = []
  \/ exists d x, t = VDict d /\ dict_get (KStr key) d = Some x
                 /\ go_through_dict_key key [t] = [x].
Proof.
  destruct t; simpl; auto.
  destruct (dict_get (KStr key) entries) as [x|] eqn:E; [|auto].
  right. exists entries, x. auto.
Qed.

Lemma process_commands_nil_not_one (commands : list command) (v : value) :
  process_commands commands [] <> Ok [v].
Proof. rewrite process_commands_nil. discriminate. Qed.





(** ** Writing, then reading *)

Lemma dict_get_set_same (key : pykey) (v : value) (d : dict) :
  dict_get key (dict_set key v d) = Some v.
Proof.
  induction d as [|[k x] d IH]; simpl; [rewrite pykey_eqb_refl; reflexivity|].
  destruct (pykey_eqb key k) eqn:E; simpl; rewrite E; [reflexivity|exact IH].
Qed.

Lemma py_position_bound (n : nat) (i : Z) (p : nat) :
  py_position n i = Some p -> (p < n)%nat.
Proof.
  unfold py_position.
  destruct (Z.leb_spec 0 i).
  - destruct (Z.ltb_spec i (Z.of_nat n)); [|discriminate]. intros [= <-]. lia.
  - destruct (Z.leb_spec (- Z.of_nat n) i); [|discriminate]. intros [= <-]. lia.
Qed.

Lemma length_list_set {A} (xs : list A) (p : nat) (x : A) :
  length (list_set xs p x) = length xs.
Proof.
  revert p. induction xs as [|y xs IH]; intros p; [reflexivity|].
  destruct p; simpl; [reflexivity|]. rewrite IH. reflexivity.
Qed.

Lemma nth_error_list_set {A} (xs : list A) (p : nat) (x : A) :
  (p < length xs)%nat -> nth_error (list_set xs p x) p = Some x.
Proof.
  revert p. induction xs as [|y xs IH]; intros p Hp; [simpl in Hp; lia|].
  destruct p; simpl; [reflexivity|]. apply IH. simpl in Hp. lia.
Qed.

Lemma py_index_list_set {A} (xs : list A) (i : Z) (p : nat) (x : A) :
  py_position (length xs) i = Some p -> py_index (list_set xs p x) i = Some x.
Proof.
  intros H. unfold py_index. rewrite length_list_set, H.
  apply nth_error_list_set. exact (py_position_bound _ _ _ H).
Qed.

Lemma py_index_inv {A} (xs : list A) (i : Z) (x : A) :
  py_index xs i = Some x ->
  exists p, py_position (length xs) i = Some p /\ nth_error xs p = Some x.
Proof. unfold py_index. destruct (py_position (length xs) i) as [p|]; [eauto|discriminate]. Qed.

Lemma go_through_list_index_inv (index : Z) (x y : value) :
  go_through_list_index index [x] = Ok [y] ->
  exists xs, as_sequence x = Some xs
             /\ (Z.of_nat (length xs) =? index) = false
             /\ py_index xs index = Some y.
Proof.
  simpl. destruct (as_sequence x) as [xs|]; [|discriminate].
  destruct (Z.gtb_spec (Z.of_nat (length xs)) index) as [Hgt|]; [|discriminate].
  destruct (py_index xs index) as [y'|] eqn:Ey; [|discriminate].
  simpl. intros [= <-]. exists xs.
  split; [reflexivity|]. split; [apply Z.eqb_neq; lia|exact Ey].
Qed.

(** Nothing can be written below a value that is not a mapping. *)
Lemma dset_loop_not_mapping (keys : list str) (last_key : str) (data v : value) :
  (forall d, data <> VDict d) -> snd (dset_loop keys last_key data v) <> None.
Proof.
  intros Hd. destruct keys as [|key rest]; cbn [dset_loop]; [unfold dset_last|];
    match goal with
    | |- context [_get_repetition_index ?k] =>
        destruct (_get_repetition_index k) as [[[k' index]|]|e]
    end;
    destruct data; try discriminate; exfalso; eapply Hd; reflexivity.
Qed.



Lemma dset_loop_steps_cons (s s' : step) (steps : list step) (t v : value) :
  dset_loop (removelast (map step_text (s :: s' :: steps)))
            (last (map step_text (s :: s' :: steps)) []) t v
  = dset_loop (step_text s :: removelast (map step_text (s' :: steps)))
              (last (map step_text (s' :: steps)) []) t v.
Proof. reflexivity. Qed.

Lemma dset_then_read (steps : list step) :
  forall (t x v t' : value),
    steps <> [] ->
    forallb step_ok steps = true ->
    process_commands (flat_map step_commands steps) [t] = Ok [x] ->
    dset_loop (removelast (map step_text steps)) (last (map step_text steps) []) t v
    = (t', None) ->
    process_commands (flat_map step_commands steps) [t'] = Ok [v].
Proof.
  induction steps as [|s steps IH]; intros t x v t' Hne Hok Hr Hw; [congruence|].
  simpl in Hok. apply andb_true_iff in Hok. destruct Hok as [Hs Hok].
  pose proof (step_key_plain _ Hs) as Hk.
  assert (forall u : value,
             process_commands
               (flat_map step_commands (s :: steps)) [u]
             = (batch <- process_commands (step_commands s) [u] ;;
                process_commands (flat_map step_commands steps) batch)) as Hsplit.
  { intros u. cbn [flat_map]. apply process_commands_app. }
  rewrite (Hsplit t) in Hr. rewrite (Hsplit t'). clear Hsplit.
  destruct s as [key|key negative ds]; cbn [step_commands process_commands bind] in *.
  - (* a key *)
    destruct (go_through_dict_key_one key t) as [E|(d & child & -> & Hget & E)];
      rewrite E in Hr; [exfalso; exact (process_commands_nil_not_one _ _ Hr)|].
    destruct steps as [|s' steps].
    + cbn [map step_text removelast last dset_loop] in Hw. unfold dset_last in Hw.
      rewrite (get_repetition_index_key _ Hk) in Hw. injection Hw as <-.
      cbn [go_through_dict_key]. rewrite dict_get_set_same. reflexivity.
    + rewrite dset_loop_steps_cons in Hw.
      cbn [dset_loop] in Hw. cbn [step_text] in Hw.
      rewrite (get_repetition_index_key _ Hk) in Hw.
      unfold ensure_key, dict_has in Hw. rewrite Hget in Hw. cbn [negb] in Hw.
      rewrite Hget in Hw.
      destruct (dset_loop (removelast (map step_text (s' :: steps)))
                          (last (map step_text (s' :: steps)) []) child v)
        as [child' raised] eqn:Ec.
      injection Hw as <- ->.
      cbn [go_through_dict_key]. rewrite dict_get_set_same.
      exact (IH child x v child' ltac:(discriminate) Hok Hr Ec).
  - (* a key and an index *)
    simpl in Hs. apply andb_true_iff in Hs. destruct Hs as [Hword Hd].
    destruct (go_through_dict_key_one key t) as [E|(d & seq & -> & Hget & E)];
      rewrite E in Hr; [exfalso; exact (process_commands_nil_not_one _ _ Hr)|].
    destruct (go_through_list_index (int_group negative ds) [seq]) as [batch|e] eqn:Eb;
      [|discriminate].
    cbn [bind] in Hr.
    destruct (go_through_list_index_one _ _ _ Eb) as [->|(child & -> & _)];
      [exfalso; exact (process_commands_nil_not_one _ _ Hr)|].
    destruct (go_through_list_index_inv _ _ _ Eb) as (xs & Hseq & Hlen & Hidx).
    destruct (py_index_inv _ _ _ Hidx) as (p & Hpos & Hnth).
    destruct steps as [|s' steps].
    + cbn [map step_text removelast last dset_loop] in Hw. unfold dset_last in Hw.
      rewrite (get_repetition_index_key_at _ _ _ Hword Hd), Hget in Hw.
      destruct seq as [ | | |s|items|inner]; try discriminate;
        cbn [as_sequence] in Hseq; injection Hseq as <-.
      * cbn [py_len] in Hw. rewrite length_map in Hlen. rewrite Hlen in Hw. discriminate.
      * cbn [py_len] in Hw. rewrite Hlen in Hw. unfold py_setitem in Hw.
        rewrite Hpos in Hw. injection Hw as <-.
        cbn [go_through_dict_key]. rewrite dict_get_set_same.
        cbn [go_through_list_index as_sequence]. rewrite length_list_set.
        assert ((Z.of_nat (length items) >? int_group negative ds) = true) as ->.
        { revert Eb. simpl. destruct (Z.of_nat (length items) >? int_group negative ds);
            [reflexivity|discriminate]. }
        rewrite (py_index_list_set _ _ _ _ Hpos). reflexivity.
    + rewrite dset_loop_steps_cons in Hw.
      cbn [dset_loop] in Hw. cbn [step_text] in Hw.
      rewrite (get_repetition_index_key_at _ _ _ Hword Hd) in Hw.
      unfold ensure_slot in Hw. rewrite Hget in Hw.
      destruct seq as [ | | |s|items|inner]; try discriminate;
        cbn [as_sequence] in Hseq; injection Hseq as <-.
      * cbn [py_len] in Hw. rewrite length_map in Hlen. rewrite Hlen, Hget in Hw.
        exfalso. unfold py_index in Hidx. rewrite length_map in Hpos.
        assert (exists c, py_index s (int_group negative ds) = Some c) as [c Hc].
        { unfold py_index. rewrite Hpos.
          destruct (nth_error s p) eqn:En; [eauto|].
          apply nth_error_None in En. apply py_position_bound in Hpos. lia. }
        rewrite Hc in Hw. injection Hw as _ Hraised.
        revert Hraised. apply dset_loop_not_mapping. discriminate.
      * cbn [py_len] in Hw. rewrite Hlen, Hget, Hpos, Hnth in Hw.
        destruct (dset_loop (removelast (map step_text (s' :: steps)))
                            (last (map step_text (s' :: steps)) []) child v)
          as [child' raised] eqn:Ec.
        injection Hw as <- ->.
        cbn [go_through_dict_key]. rewrite dict_get_set_same.
        cbn [go_through_list_index as_sequence]. rewrite length_list_set.
        assert ((Z.of_nat (length items) >? int_group negative ds) = true) as ->.
        { revert Eb. simpl. destruct (Z.of_nat (length items) >? int_group negative ds);
            [reflexivity|discriminate]. }
        rewrite (py_index_list_set _ _ _ _ Hpos). cbn [bind].
        exact (IH child x v child' ltac:(discriminate) Hok Hr Ec).
Qed.

Lemma process_commands_steps_on_str (s : step) (steps : list step) (c : str) (x : value) :
  process_commands (flat_map step_commands (s :: steps)) [VStr c] <> Ok [x].
Proof. destruct s; simpl; apply process_commands_nil_not_one. Qed.

Lemma removelast_step_commands (s s' : step) (steps : list step) :
  removelast (flat_map step_commands (s :: s' :: steps))
  = step_commands s ++ removelast (flat_map step_commands (s' :: steps)).
Proof. cbn [flat_map]. apply removelast_app. destruct s'; discriminate. Qed.

(** Along a path that resolves, the writer either returns, or finds that
    the last index names a character of a [str], which it cannot assign. *)
Lemma dset_resolving (steps : list step) :
  forall (t x v : value),
    steps <> [] ->
    forallb step_ok steps = true ->
    process_commands (flat_map step_commands steps) [t] = Ok [x] ->
    (exists s,
        process_commands (removelast (flat_map step_commands steps)) [t] = Ok [VStr s]
        /\ snd (dset_loop (removelast (map step_text steps))
                          (last (map step_text steps) []) t v) = Some TypeError)
    \/ ((forall s,
            process_commands (removelast (flat_map step_commands steps)) [t]
            <> Ok [VStr s])
        /\ exists t',
             dset_loop (removelast (map step_text steps))
                       (last (map step_text steps) []) t v = (t', None)).
Proof.
  induction steps as [|s steps IH]; intros t x v Hne Hok Hr; [congruence|].
  simpl in Hok. apply andb_true_iff in Hok. destruct Hok as [Hs Hok].
  pose proof (step_key_plain _ Hs) as Hk.
  assert (process_commands (flat_map step_commands (s :: steps)) [t]
          = (batch <- process_commands (step_commands s) [t] ;;
             process_commands (flat_map step_commands steps) batch)) as Hsplit.
  { cbn [flat_map]. apply process_commands_app. }
  rewrite Hsplit in Hr. clear Hsplit.
  destruct s as [key|key negative ds]; cbn [step_commands process_commands bind] in Hr.
  - (* a key *)
    destruct (go_through_dict_key_one key t) as [E|(d & child & -> & Hget & E)];
      rewrite E in Hr; [exfalso; exact (process_commands_nil_not_one _ _ Hr)|].
    destruct steps as [|s' steps].
    + right. split; [intros s; simpl; discriminate|].
      cbn [map step_text removelast last dset_loop]. unfold dset_last.
      rewrite (get_repetition_index_key _ Hk). eexists. reflexivity.
    + assert (dset_loop (removelast (map step_text (Key key :: s' :: steps)))
                        (last (map step_text (Key key :: s' :: steps)) []) (VDict d) v
              = (let (child', raised) :=
                   dset_loop (removelast (map step_text (s' :: steps)))
                             (last (map step_text (s' :: steps)) []) child v in
                 (VDict (dict_set (KStr key) child' d), raised))) as Hloop.
      { rewrite dset_loop_steps_cons. cbn [dset_loop]. cbn [step_text].
        rewrite (get_repetition_index_key _ Hk).
        unfold ensure_key, dict_has. rewrite Hget. cbn [negb]. rewrite Hget.
        reflexivity. }
      assert (process_commands
                (removelast (flat_map step_commands (Key key :: s' :: steps))) [VDict d]
              = process_commands
                  (removelast (flat_map step_commands (s' :: steps))) [child]) as Hcmd.
      { rewrite removelast_step_commands, process_commands_app.
        cbn [step_commands process_commands bind]. rewrite E. reflexivity. }
      rewrite Hloop, Hcmd.
      destruct (IH child x v ltac:(discriminate) Hok Hr)
        as [(s0 & Hs0 & Hraise)|(Hnot & t' & Ht')].
      * left. exists s0. split; [exact Hs0|].
        destruct (dset_loop (removelast (map step_text (s' :: steps)))
                            (last (map step_text (s' :: steps)) []) child v).
        exact Hraise.
      * right. split; [exact Hnot|]. rewrite Ht'. eexists. reflexivity.
  - (* a key and an index *)
    simpl in Hs. apply andb_true_iff in Hs. destruct Hs as [Hword Hd].
    destruct (go_through_dict_key_one key t) as [E|(d & seq & -> & Hget & E)];
      rewrite E in Hr; [exfalso; exact (process_commands_nil_not_one _ _ Hr)|].
    destruct (go_through_list_index (int_group negative ds) [seq]) as [batch|e] eqn:Eb;
      [|discriminate].
    cbn [bind] in Hr.
    destruct (go_through_list_index_one _ _ _ Eb) as [->|(child & -> & _)];
      [exfalso; exact (process_commands_nil_not_one _ _ Hr)|].
    destruct (go_through_list_index_inv _ _ _ Eb) as (xs & Hseq & Hlen & Hidx).
    destruct (py_index_inv _ _ _ Hidx) as (p & Hpos & Hnth).
    destruct steps as [|s' steps].
    + assert (process_commands
                (removelast (flat_map step_commands [KeyAt key negative ds])) [VDict d]
              = Ok [seq]) as Hcmd.
      { simpl. rewrite Hget. reflexivity. }
      rewrite Hcmd.
      cbn [map step_text removelast last dset_loop]. unfold dset_last.
      rewrite (get_repetition_index_key_at _ _ _ Hword Hd), Hget.
      destruct seq as [ | | |s|items|inner]; try discriminate;
        cbn [as_sequence] in Hseq; injection Hseq as <-.
      * left. exists s. split; [reflexivity|].
        cbn [py_len]. rewrite length_map in Hlen. rewrite Hlen. reflexivity.
      * right. split; [intros s; discriminate|].
        cbn [py_len]. rewrite Hlen. unfold py_setitem. rewrite Hpos.
        eexists. reflexivity.
    + destruct seq as [ | | |s|items|inner]; try discriminate;
        cbn [as_sequence] in Hseq; injection Hseq as <-.
      * exfalso. apply nth_error_In in Hnth. apply in_map_iff in Hnth.
        destruct Hnth as (c & <- & _).
        exact (process_commands_steps_on_str _ _ _ _ Hr).
      * assert (dset_loop
                  (removelast (map step_text (KeyAt key negative ds :: s' :: steps)))
                  (last (map step_text (KeyAt key negative ds :: s' :: steps)) [])
                  (VDict d) v
                = (let (child', raised) :=
                     dset_loop (removelast (map step_text (s' :: steps)))
                               (last (map step_text (s' :: steps)) []) child v in
                   (VDict (dict_set (KStr key) (VList (list_set items p child')) d),
                    raised))) as Hloop.
        { rewrite dset_loop_steps_cons. cbn [dset_loop]. cbn [step_text].
          rewrite (get_repetition_index_key_at _ _ _ Hword Hd).
          unfold ensure_slot. rewrite Hget. cbn [py_len].
          rewrite Hlen, Hget, Hpos, Hnth. reflexivity. }
        assert (process_commands
                  (removelast
                     (flat_map step_commands (KeyAt key negative ds :: s' :: steps)))
                  [VDict d]
                = process_commands
                    (removelast (flat_map step_commands (s' :: steps))) [child]) as Hcmd.
        { rewrite removelast_step_commands, process_commands_app.
          cbn [step_commands process_commands bind]. rewrite E, Eb. reflexivity. }
        rewrite Hloop, Hcmd.
        destruct (IH child x v ltac:(discriminate) Hok Hr)
          as [(s0 & Hs0 & Hraise)|(Hnot & t' & Ht')].
        -- left. exists s0. split; [exact Hs0|].
           destruct (dset_loop (removelast (map step_text (s' :: steps)))
                               (last (map step_text (s' :: steps)) []) child v).
           exact Hraise.
        -- right. split; [exact Hnot|]. rewrite Ht'. eexists. reflexivity.
Qed.

(** C5, as stated, fails on a key with a character that is not a word
    character before a bracket: the writer takes the reference from the
    last run of word characters, and writes under another key. *)
Lemma dset_dget_other_key_counterexample :
  let t := VDict [(KStr (py "a-b"), VList [VInt 5])] in
  let t' := fst (dset t (py "a-b[0]") (VInt 9)) in
  resolves t (py "a-b[0]") (VInt 5)
  /\ dset t (py "a-b[0]") (VInt 9)
     = (VDict [(KStr (py "a-b"), VList [VInt 5]); (KStr (py "b"), VList [VInt 9])], None)
  /\ dget t' (py "a-b[0]") VNone = Ok (VInt 5)
  /\ dget t' (py "a-b[0]") VNone <> Ok (VInt 9).
Proof.
  simpl. split; [|split; [reflexivity|split; [reflexivity|discriminate]]].
  exists [ThroughDictKey (py "a-b"); ThroughListIndexed 0]. split; reflexivity.
Qed.

(** C5. Along a path whose segments are keys (non-empty, free of [/] and
    [[], other than [*]) or keys of word characters followed by a bracketed
    signed integer, and that resolves to a leaf: [dset] returns without
    raising and [dget] reads the written value back, unless the last index
    of the path names a character of a [str]; there [dset] raises
    [TypeError]. *)
Theorem dset_dget_roundtrip (t : value) (leading_slash : bool) (steps : list step)
        (leaf v default : value) :
  steps <> [] ->
  forallb step_ok steps = true ->
  resolves t (path_text leading_slash steps) leaf ->
  is_scalar leaf = true ->
  (indexes_str t (path_text leading_slash steps) = false ->
   exists t' : value,
     dset t (path_text leading_slash steps) v = (t', None)
     /\ dget t' (path_text leading_slash steps) default = Ok v)
  /\ (indexes_str t (path_text leading_slash steps) = true ->
      snd (dset t (path_text leading_slash steps) v) = Some TypeError).
Proof.
  intros Hne Hok (commands & Hp & Hr) _.
  rewrite (read_path_steps _ _ Hne Hok) in Hp. injection Hp as <-.
  unfold indexes_str. rewrite (read_path_steps _ _ Hne Hok).
  unfold dset. rewrite (strip_slash_path_text _ _ Hne Hok), (split_steps _ Hne Hok).
  destruct (dset_resolving steps t leaf v Hne Hok Hr)
    as [(s & Hs & Hraise)|(Hnot & t' & Ht')].
  - rewrite Hs. split; [discriminate|]. intros _. exact Hraise.
  - split.
    + intros _. exists t'. split; [exact Ht'|].
      rewrite (dget_unfold t' _ default _ [v] (read_path_steps _ _ Hne Hok)
                 (dset_then_read _ _ _ _ _ Hne Hok Hr Ht')).
      rewrite flat_map_step_commands_no_flat. reflexivity.
    + intros H. exfalso.
      destruct (process_commands (removelast (flat_map step_commands steps)) [t])
        as [[|y [|]]|]; try discriminate; destruct y; try discriminate.
      exact (Hnot s eq_refl).
Qed.

Lemma dset_dget_roundtrip_witness :
  let t := VDict [(KStr (py "users"),
                   VList [VDict [(KStr (py "name"), VStr (py "Al"))];
                          VDict [(KStr (py "name"), VStr (py "Bo"))]])] in
  let u := VDict [(KStr (py "word"), VStr (py "xyz"))] in
  (exists t' : value,
      dset t (py "users[1]/name") (VStr (py "Cy")) = (t', None)
      /\ dget t' (py "users[1]/name") VNone = Ok (VStr (py "Cy")))
  /\ snd (dset u (py "word[1]") (VStr (py "a"))) = Some TypeError.
Proof.
  intros t u. split.
  - apply (proj1 (dset_dget_roundtrip t false
                    [KeyAt (py "users") false (py "1"); Key (py "name")]
                    (VStr (py "Bo")) (VStr (py "Cy")) VNone
                    ltac:(discriminate) eq_refl
                    (ex_intro _ [ThroughDictKey (py "users"); ThroughListIndexed 1;
                                 ThroughDictKey (py "name")] (conj eq_refl eq_refl))
                    eq_refl)).
    reflexivity.
  - apply (proj2 (dset_dget_roundtrip u false [KeyAt (py "word") false (py "1")]
                    (VStr (py "y")) (VStr (py "a")) VNone
                    ltac:(discriminate) eq_refl
                    (ex_intro _ [ThroughDictKey (py "word"); ThroughListIndexed 1]
                              (conj eq_refl eq_refl))
                    eq_refl)).
    reflexivity.
Defined.

(** ** Writing twice *)

Lemma dict_set_twice (key : pykey) (x y : value) (d : dict) :
  dict_set key y (dict_set key x d) = dict_set key y d.
Proof.
  induction d as [|[k z] d IH]; simpl; [rewrite pykey_eqb_refl; reflexivity|].
  destruct (pykey_eqb key k) eqn:E; simpl; rewrite E; [reflexivity|].
  rewrite IH. reflexivity.
Qed.

Lemma dict_has_set (key : pykey) (x : value) (d : dict) :
  dict_has key (dict_set key x d) = true.
Proof. unfold dict_has. rewrite dict_get_set_same. reflexivity. Qed.

Lemma length_dict_set (key : pykey) (x y : value) (d : dict) :
  dict_get key d = Some x -> length (dict_set key y d) = length d.
Proof.
  induction d as [|[k z] d IH]; simpl; [discriminate|].
  destruct (pykey_eqb key k); simpl; [reflexivity|]. intros H. rewrite (IH H). reflexivity.
Qed.

Lemma list_set_twice {A} (xs : list A) (p : nat) (x y : A) :
  list_set (list_set xs p x) p y = list_set xs p y.
Proof.
  revert p. induction xs as [|z xs IH]; intros p; [reflexivity|].
  destruct p; simpl; [reflexivity|]. rewrite IH. reflexivity.
Qed.

Lemma list_set_last {A} (xs : list A) (x y : A) :
  list_set (xs ++ [x]) (length xs) y = xs ++ [y].
Proof. induction xs as [|z xs IH]; simpl; [reflexivity|]. rewrite IH. reflexivity. Qed.

Lemma py_position_not_length (n : nat) (i : Z) (p : nat) :
  py_position n i = Some p -> (Z.of_nat n =? i) = false.
Proof.
  intros H. apply Z.eqb_neq. revert H. unfold py_position.
  destruct (Z.leb_spec 0 i).
  - destruct (Z.ltb_spec i (Z.of_nat n)); [|discriminate]. lia.
  - lia.
Qed.

Lemma py_position_length (n : nat) : py_position (S n) (Z.of_nat n) = Some n.
Proof.
  unfold py_position.
  destruct (Z.leb_spec 0 (Z.of_nat n)); [|lia].
  destruct (Z.ltb_spec (Z.of_nat n) (Z.of_nat (S n))); [|lia].
  rewrite Nat2Z.id. reflexivity.
Qed.

Lemma ensure_key_present (key : str) (x : value) (d : dict) :
  ensure_key key (dict_set (KStr key) x d) = dict_set (KStr key) x d.
Proof. unfold ensure_key. rewrite dict_has_set. reflexivity. Qed.

Lemma ensure_slot_settled (key : str) (index : Z) (x : value) (d : dict) (n : nat) :
  py_len x = Some n -> (Z.of_nat n =? index) = false ->
  ensure_slot key index (dict_set (KStr key) x d) = Ok (dict_set (KStr key) x d).
Proof.
  intros Hn Hi. unfold ensure_slot. rewrite dict_get_set_same, Hn, Hi. reflexivity.
Qed.

Lemma ensure_slot_mapping (key : str) (index : Z) (d d1 : dict) (inner : dict) :
  ensure_slot key index d = Ok d1 ->
  dict_get (KStr key) d1 = Some (VDict inner) ->
  (Z.of_nat (length inner) =? index) = false.
Proof.
  unfold ensure_slot. destruct (dict_get (KStr key) d) as [x|] eqn:Hget.
  - destruct (py_len x) as [n|] eqn:Hn; [|discriminate].
    destruct (Z.of_nat n =? index) eqn:Hi.
    + destruct x; try discriminate. intros [= <-]. rewrite dict_get_set_same. discriminate.
    + intros [= <-]. rewrite Hget. intros [= ->]. simpl in Hn. congruence.
  - intros [= <-]. rewrite dict_get_set_same. discriminate.
Qed.

(** The last segment, written twice. *)
Lemma dset_last_twice (last_key : str) (data v t1 : value) :
  dset_last last_key data v = (t1, None) ->
  creates_at_one last_key data = false ->
  fst (dset_last last_key t1 v) = t1.
Proof.
  unfold dset_last, creates_at_one.
  destruct (_get_repetition_index last_key) as [[[key index]|]|e]; [| |discriminate].
  - destruct data as [ | | | | |d]; try discriminate.
    unfold dict_has. destruct (dict_get (KStr key) d) as [x|] eqn:Hget.
    + destruct (py_len x) as [n|] eqn:Hn; [|discriminate].
      destruct (Z.of_nat n =? index) eqn:Hi.
      * destruct x as [ | | | |items| ]; try discriminate.
        intros [= <-] _. rewrite dict_get_set_same. cbn [py_len].
        simpl in Hn. injection Hn as <-. apply Z.eqb_eq in Hi. subst index.
        rewrite length_app, Nat.add_1_r.
        assert ((Z.of_nat (S (length items)) =? Z.of_nat (length items)) = false) as ->
            by (apply Z.eqb_neq; lia).
        unfold py_setitem. rewrite length_app, Nat.add_1_r, py_position_length.
        rewrite list_set_last, dict_set_twice. reflexivity.
      * destruct x as [ | | | |items|inner]; try discriminate.
        -- unfold py_setitem. destruct (py_position (length items) index) as [p|] eqn:Hp;
             [|discriminate].
           intros [= <-] _. rewrite dict_get_set_same. cbn [py_len].
           rewrite length_list_set. simpl in Hn. injection Hn as <-. rewrite Hi.
           unfold py_setitem. rewrite ?length_list_set, Hp, list_set_twice, dict_set_twice.
           reflexivity.
        -- intros [= <-] _. rewrite dict_get_set_same. cbn [py_len].
           destruct (Z.of_nat (length (dict_set (KInt index) v inner)) =? index);
             [reflexivity|].
           rewrite !dict_set_twice. reflexivity.
    + intros [= <-] Hc. cbn [negb andb] in Hc.
      rewrite dict_get_set_same. cbn [py_len length].
      rewrite Z.eqb_sym in Hc. change (Z.of_nat 1) with 1. rewrite Hc.
      unfold py_setitem.
      destruct (py_position (length [v]) index) as [p|] eqn:Hp; [|reflexivity].
      apply py_position_bound in Hp. simpl in Hp.
      assert (p = 0%nat) as -> by lia. simpl. rewrite dict_set_twice. reflexivity.
  - destruct data as [ | | | | |d]; try discriminate.
    intros [= <-] _. rewrite dict_set_twice. reflexivity.
Qed.
(** The whole loop, run twice. *)
Lemma dset_loop_twice (keys : list str) :
  forall (last_key : str) (data v t1 cursor : value),
    dset_loop keys last_key data v = (t1, None) ->
    dset_cursor keys data = Some cursor ->
    creates_at_one last_key cursor = false ->
    fst (dset_loop keys last_key t1 v) = t1.
Proof.
  induction keys as [|key rest IH]; intros last_key data v t1 cursor.
  - cbn [dset_loop dset_cursor]. intros Hw [= <-] Hc. exact (dset_last_twice _ _ _ _ Hw Hc).
  - cbn [dset_loop dset_cursor].
    destruct (_get_repetition_index key) as [[[k index]|]|e] eqn:Hrep; [| |discriminate].
    + (* a repetition reference *)
      destruct data as [ | | | | |d]; try discriminate.
      destruct (ensure_slot k index d) as [d1|e] eqn:Hslot; [|discriminate].
      destruct (dict_get (KStr k) d1) as [[ | | |s|items|inner]|] eqn:Hx;
        try discriminate.
      * destruct (py_index s index) as [c|]; [|discriminate].
        intros [= _ Hraised]. exfalso. revert Hraised.
        apply dset_loop_not_mapping. discriminate.
      * destruct (py_position (length items) index) as [p|] eqn:Hp; [|discriminate].
        destruct (nth_error items p) as [child|] eqn:Hnth; [|discriminate].
        destruct (dset_loop rest last_key child v) as [child' raised] eqn:Hrec.
        intros [= <- ->]. unfold py_index. rewrite Hp, Hnth. intros Hcur Hc.
        pose proof (IH _ _ _ _ _ Hrec Hcur Hc) as Hchild.
        rewrite (ensure_slot_settled k index _ d1 (length items));
          [|cbn [py_len]; rewrite length_list_set; reflexivity
           |exact (py_position_not_length _ _ _ Hp)].
        rewrite dict_get_set_same, length_list_set, Hp.
        rewrite (nth_error_list_set _ _ _ (py_position_bound _ _ _ Hp)).
        destruct (dset_loop rest last_key child' v) as [child2 raised2].
        cbn [fst] in Hchild |- *. subst child2.
        rewrite list_set_twice, dict_set_twice. reflexivity.
      * destruct (dict_get (KInt index) inner) as [child|] eqn:Hchild0; [|discriminate].
        destruct (dset_loop rest last_key child v) as [child' raised] eqn:Hrec.
        intros [= <- ->] Hcur Hc.
        pose proof (IH _ _ _ _ _ Hrec Hcur Hc) as Hchild.
        pose proof (ensure_slot_mapping _ _ _ _ _ Hslot Hx) as Hlen.
        rewrite (ensure_slot_settled k index _ d1 (length inner));
          [|cbn [py_len]; rewrite (length_dict_set _ _ _ _ Hchild0); reflexivity
           |exact Hlen].
        rewrite dict_get_set_same, dict_get_set_same.
        destruct (dset_loop rest last_key child' v) as [child2 raised2].
        cbn [fst] in Hchild |- *. subst child2.
        rewrite !dict_set_twice. reflexivity.
    + (* a key *)
      destruct data as [ | | | | |d]; try discriminate.
      destruct (dict_get (KStr key) (ensure_key key d)) as [child|] eqn:Hget;
        [|discriminate].
      destruct (dset_loop rest last_key child v) as [child' raised] eqn:Hrec.
      intros [= <- ->] Hcur Hc.
      pose proof (IH _ _ _ _ _ Hrec Hcur Hc) as Hchild.
      rewrite ensure_key_present, dict_get_set_same.
      destruct (dset_loop rest last_key child' v) as [child2 raised2].
      cbn [fst] in Hchild |- *. subst child2.
      rewrite dict_set_twice. reflexivity.
Qed.

(** The loop that ends without raising has brought the cursor somewhere. *)
Lemma dset_loop_cursor (keys : list str) :
  forall (last_key : str) (data v : value),
    snd (dset_loop keys last_key data v) = None ->
    exists cursor, dset_cursor keys data = Some cursor.
Proof.
  induction keys as [|key rest IH]; intros last_key data v; [eexists; reflexivity|].
  cbn [dset_loop dset_cursor].
  destruct (_get_repetition_index key) as [[[k index]|]|e]; [| |discriminate].
  - destruct data as [ | | | | |d]; try discriminate.
    destruct (ensure_slot k index d) as [d1|e]; [|discriminate].
    destruct (dict_get (KStr k) d1) as [[ | | |s|items|inner]|]; try discriminate.
    + destruct (py_index s index) as [c|]; [|discriminate]. simpl. apply IH.
    + unfold py_index. destruct (py_position (length items) index) as [p|]; [|discriminate].
      destruct (nth_error items p) as [child|]; [|discriminate].
      specialize (IH last_key child v).
      destruct (dset_loop rest last_key child v). exact IH.
    + destruct (dict_get (KInt index) inner) as [child|]; [|discriminate].
      specialize (IH last_key child v).
      destruct (dset_loop rest last_key child v). exact IH.
  - destruct data as [ | | | | |d]; try discriminate.
    destruct (dict_get (KStr key) (ensure_key key d)) as [child|]; [|discriminate].
    specialize (IH last_key child v).
    destruct (dset_loop rest last_key child v). exact IH.
Qed.

(** C9, as stated, fails on a last segment of index 1 whose key is
    missing: the first call makes the list of one element, whose length the
    second call finds equal to the index, and appends. *)
Lemma dset_twice_appends_counterexample :
  let t := VDict [] in
  let once := fst (dset t (py "a[1]") (VInt 7)) in
  dset t (py "a[1]") (VInt 7) = (VDict [(KStr (py "a"), VList [VInt 7])], None)
  /\ dset once (py "a[1]") (VInt 7)
     = (VDict [(KStr (py "a"), VList [VInt 7; VInt 7])], None)
  /\ fst (dset once (py "a[1]") (VInt 7)) <> once.
Proof. simpl. split; [reflexivity|]. split; [reflexivity|discriminate]. Qed.

(** C9. When [dset] returns without raising, the same call again leaves
    the tree as the first call left it, unless the last segment is a
    repetition reference of index 1 whose key is missing from the mapping
    that the path leads to; and a last segment whose index is the length of
    the list appends on the first call and overwrites on the second. *)
Theorem dset_idempotent :
  (forall (t : value) (p : str) (v t1 cursor : value),
      dset t p v = (t1, None) ->
      dset_cursor (removelast (split (strip_slash p))) t = Some cursor ->
      creates_at_one (last (split (strip_slash p)) []) cursor = false ->
      fst (dset t1 p v) = t1)
  /\ (forall (d : dict) (key : str) (items : list value) (v : value),
         word_key key = true ->
         dict_get (KStr key) d = Some (VList items) ->
         let p := key ++ index_text false (format_index (length items)) in
         let t1 := VDict (dict_set (KStr key) (VList (items ++ [v])) d) in
         dset (VDict d) p v = (t1, None) /\ dset t1 p v = (t1, None)).
Proof.
  split.
  - intros t p v t1 cursor Hw Hcur Hc. unfold dset in *.
    exact (dset_loop_twice _ _ _ _ _ _ Hw Hcur Hc).
  - intros d key items v Hk Hget p t1.
    assert (dset_loop (removelast (split (strip_slash p))) (last (split (strip_slash p)) [])
            = dset_last p) as Hp.
    { pose proof (step_text_no_slash (KeyAt key false (format_index (length items))))
        as Hns.
      pose proof (step_text_head (KeyAt key false (format_index (length items))))
        as Hhead.
      cbn [step_ok step_text] in Hns, Hhead. fold p in Hns, Hhead.
      rewrite Hk, format_index_digits in Hns, Hhead.
      destruct (Hhead eq_refl) as (c & rest & E & Hc).
      assert (strip_slash p = p) as -> by (rewrite E; simpl; rewrite Hc; reflexivity).
      rewrite (split_no_slash _ (Hns eq_refl)). reflexivity. }
    unfold dset. rewrite Hp. unfold dset_last. subst p.
    rewrite (get_repetition_index_key_at _ _ _ Hk (format_index_digits _)),
      format_index_value.
    split.
    + rewrite Hget. cbn [py_len]. rewrite Z.eqb_refl. reflexivity.
    + subst t1. cbv beta iota. rewrite dict_get_set_same. cbn [py_len].
      rewrite length_app, Nat.add_1_r.
      assert ((Z.of_nat (S (length items)) =? Z.of_nat (length items)) = false) as ->
          by (apply Z.eqb_neq; lia).
      unfold py_setitem. rewrite length_app, Nat.add_1_r, py_position_length.
      rewrite list_set_last, dict_set_twice. reflexivity.
Qed.

Lemma dset_idempotent_witness :
  let t := VDict [(KStr (py "items"), VList [VDict [(KStr (py "v"), VStr (py "x"))]])] in
  let t1 := VDict [(KStr (py "items"),
                    VList [VDict [(KStr (py "v"), VStr (py "x"))];
                           VDict [(KStr (py "v"), VStr (py "y"))]])] in
  fst (dset t1 (py "items[1]/v") (VStr (py "y"))) = t1
  /\ dset (VDict [(KStr (py "a"), VList [VInt 1])]) (py "a[1]") (VInt 2)
     = (VDict [(KStr (py "a"), VList [VInt 1; VInt 2])], None).
Proof.
  intros t t1. split.
  - apply (proj1 dset_idempotent t (py "items[1]/v") (VStr (py "y")) t1 (VDict []));
      reflexivity.
  - apply (proj2 dset_idempotent [(KStr (py "a"), VList [VInt 1])] (py "a")
             [VInt 1] (VInt 2)); reflexivity.
Defined.

(** * Further properties *)

(** ** The fan-out reader, item by item *)

Lemma go_through_list_index_raises (index : Z) (batch : list value) (e : exn) :
  go_through_list_index index batch = Raise e -> e = IndexError.
Proof.
  induction batch as [|item rest IH]; simpl; [discriminate|].
  destruct (as_sequence item) as [xs|]; [|exact IH].
  destruct (Z.of_nat (length xs) >? index); [|exact IH].
  destruct (py_index xs index); [|congruence].
  destruct (go_through_list_index index rest); simpl; [discriminate|].
  intros [= <-]. apply IH. reflexivity.
Qed.

Lemma process_commands_raises (commands : list command) (batch : list value) (e : exn) :
  process_commands commands batch = Raise e -> e = IndexError.
Proof.
  revert batch. induction commands as [|c cs IH]; intros batch; simpl; [discriminate|].
  destruct c; try apply IH.
  destruct (go_through_list_index index batch) eqn:E; simpl; [apply IH|].
  intros [= <-]. exact (go_through_list_index_raises _ _ _ E).
Qed.

Lemma go_through_dict_key_app (key : str) (a b : list value) :
  go_through_dict_key key (a ++ b) = go_through_dict_key key a ++ go_through_dict_key key b.
Proof.
  induction a as [|item a IH]; [reflexivity|]. simpl.
  destruct item; try exact IH.
  destruct (dict_get (KStr key) entries); [simpl; rewrite IH; reflexivity|exact IH].
Qed.

Lemma go_through_list_flat_app (a b : list value) :
  go_through_list_flat (a ++ b) = go_through_list_flat a ++ go_through_list_flat b.
Proof.
  induction a as [|item a IH]; [reflexivity|]. simpl.
  destruct (as_sequence item); [rewrite IH, app_assoc; reflexivity|exact IH].
Qed.

Lemma go_through_dict_flat_app (a b : list value) :
  go_through_dict_flat (a ++ b) = go_through_dict_flat a ++ go_through_dict_flat b.
Proof.
  induction a as [|item a IH]; [reflexivity|]. simpl.
  destruct item; try exact IH. rewrite IH, app_assoc. reflexivity.
Qed.

Lemma go_through_list_index_app (index : Z) (a b : list value) :
  go_through_list_index index (a ++ b)
  = (ra <- go_through_list_index index a ;;
     rb <- go_through_list_index index b ;;
     Ok (ra ++ rb)).
Proof.
  induction a as [|item a IH].
  - simpl. destruct (go_through_list_index index b); reflexivity.
  - simpl. destruct (as_sequence item) as [xs|]; [|exact IH].
    destruct (Z.of_nat (length xs) >? index); [|exact IH].
    destruct (py_index xs index); [|reflexivity].
    rewrite IH. destruct (go_through_list_index index a); simpl; [|reflexivity].
    destruct (go_through_list_index index b); reflexivity.
Qed.

(** X1. The items of a batch are followed one by one: the commands applied
    to two batches put end to end give the two results put end to end, and
    raise as soon as one of the two raises. *)
Theorem process_commands_batch_app (commands : list command) (a b : list value) :
  process_commands commands (a ++ b)
  = (ra <- process_commands commands a ;;
     rb <- process_commands commands b ;;
     Ok (ra ++ rb)).
Proof.
  revert a b. induction commands as [|c cs IH]; intros a b.
  - reflexivity.
  - destruct c; cbn [process_commands].
    + rewrite go_through_list_flat_app. apply IH.
    + rewrite go_through_list_index_app.
      destruct (go_through_list_index index a) as [ra|e] eqn:Ea; cbn [bind];
        [|reflexivity].
      destruct (go_through_list_index index b) as [rb|e] eqn:Eb; cbn [bind].
      * apply IH.
      * pose proof (go_through_list_index_raises _ _ _ Eb) as ->.
        destruct (process_commands cs ra) as [r|e'] eqn:Er; cbn [bind]; [reflexivity|].
        rewrite (process_commands_raises _ _ _ Er). reflexivity.
    + rewrite go_through_dict_flat_app. apply IH.
    + rewrite go_through_dict_key_app. apply IH.
Qed.

Lemma length_go_through_dict_key (key : str) (batch : list value) :
  (length (go_through_dict_key key batch) <= length batch)%nat.
Proof.
  induction batch as [|item rest IH]; simpl; [lia|].
  destruct item; try lia. destruct (dict_get (KStr key) entries); simpl; lia.
Qed.

Lemma length_go_through_list_index (index : Z) (batch result : list value) :
  go_through_list_index index batch = Ok result ->
  (length result <= length batch)%nat.
Proof.
  revert result. induction batch as [|item rest IH]; intros result; simpl.
  - intros [= <-]. simpl. lia.
  - destruct (as_sequence item) as [xs|];
      [|intros H; specialize (IH _ H); lia].
    destruct (Z.of_nat (length xs) >? index);
      [|intros H; specialize (IH _ H); lia].
    destruct (py_index xs index); [|discriminate].
    destruct (go_through_list_index index rest) as [r|]; simpl; [|discriminate].
    intros [= <-]. specialize (IH _ eq_refl). simpl. lia.
Qed.

(** X2. Commands that do not flatten never widen the batch: along a path
    without wildcard the reader follows at most one value from the root, so
    that taking the first element of the final batch drops nothing. *)
Theorem process_commands_no_fan_out (commands : list command) (batch result : list value) :
  has_flat commands = false ->
  process_commands commands batch = Ok result ->
  (length result <= length batch)%nat.
Proof.
  revert batch. induction commands as [|c cs IH]; intros batch Hf Hr.
  - simpl in Hr. injection Hr as <-. lia.
  - simpl in Hf. apply orb_false_iff in Hf. destruct Hf as [Hc Hf].
    destruct c; try discriminate; cbn [process_commands] in Hr.
    + destruct (go_through_list_index index batch) as [r|] eqn:E; [|discriminate].
      cbn [bind] in Hr. pose proof (length_go_through_list_index _ _ _ E).
      specialize (IH _ Hf Hr). lia.
    + pose proof (length_go_through_dict_key key batch).
      specialize (IH _ Hf Hr). lia.
Qed.

Lemma process_commands_no_fan_out_witness :
  (length [VInt 2] <= length [VDict [(KStr (py "a"), VList [VInt 1; VInt 2])]])%nat.
Proof.
  apply (process_commands_no_fan_out
           [ThroughDictKey (py "a"); ThroughListIndexed 1]); reflexivity.
Defined.

(** ** A lone index *)

Lemma separate_brackets_lone (c : ascii) (s : str) :
  forallb (fun x => negb (Ascii.eqb x "[")) s = true ->
  separate_brackets (c :: s) = c :: s.
Proof.
  intros H. rewrite separate_brackets_step, (separate_brackets_plain _ H).
  assert (bracket_length s = None) as ->.
  { destruct s as [|x s]; [reflexivity|]. simpl in H.
    apply andb_true_iff in H. destruct H as [Hx _].
    apply bracket_length_not_bracket. destruct (Ascii.eqb x "["); [discriminate|reflexivity]. }
  destruct (is_slash c); reflexivity.
Qed.

Lemma digit_not_bracket (c : ascii) : is_digit c = true -> negb (Ascii.eqb c "[") = true.
Proof. destruct (Ascii.eqb_spec c "[") as [->|]; [discriminate|reflexivity]. Qed.

Lemma index_text_tail_plain (negative : bool) (ds : str) :
  forallb is_digit ds = true ->
  forallb (fun x => negb (Ascii.eqb x "[")) (sign_text negative ++ ds ++ ["]"]) = true.
Proof.
  intros H. rewrite !forallb_app. apply andb_true_iff. split; [destruct negative; reflexivity|].
  apply andb_true_iff. split; [|reflexivity].
  induction ds as [|d ds IH]; [reflexivity|].
  simpl in *. apply andb_true_iff in H. destruct H as [Hd H].
  rewrite (digit_not_bracket _ Hd). exact (IH H).
Qed.

Lemma compile_lone_index (negative : bool) (ds : str) :
  digits ds = true ->
  compile (index_text negative ds) = [ThroughListIndexed (int_group negative ds)].
Proof.
  intros Hd. destruct (digits_inv _ Hd) as [_ Hall]. unfold compile.
  unfold index_text at 1.
  rewrite (separate_brackets_lone _ _ (index_text_tail_plain negative ds Hall)).
  fold (index_text negative ds).
  rewrite (split_no_slash _ (index_text_no_slash _ _ Hd)). simpl.
  rewrite (make_command_index _ _ Hd). reflexivity.
Qed.

Lemma py_index_none {A} (xs : list A) (i : Z) :
  py_index xs i = None ->
  (0 <= i -> Z.of_nat (length xs) <= i) /\ (i < 0 -> i < - Z.of_nat (length xs)).
Proof.
  unfold py_index, py_position.
  destruct (Z.leb_spec 0 i).
  - destruct (Z.ltb_spec i (Z.of_nat (length xs))); [|lia].
    intros E. apply nth_error_None in E. lia.
  - destruct (Z.leb_spec (- Z.of_nat (length xs)) i); [|lia].
    intros E. apply nth_error_None in E. lia.
Qed.

Lemma py_index_some {A} (xs : list A) (i : Z) (x : A) :
  py_index xs i = Some x -> i < Z.of_nat (length xs).
Proof.
  intros H. destruct (py_index_inv _ _ _ H) as (p & Hp & _).
  pose proof (py_position_bound _ _ _ Hp). revert Hp. unfold py_position.
  destruct (Z.leb_spec 0 i).
  - destruct (Z.ltb_spec i (Z.of_nat (length xs))); [lia|discriminate].
  - lia.
Qed.

(** X3. A lone index on a sequence, list or string: the element that
    Python's indexing gives when the index is within reach, counting from
    the end when it is negative; the default when the index is at or past
    the length; [IndexError] when it reaches back before the start. *)
Theorem dget_lone_index (t : value) (xs : list value) (negative : bool) (ds : str)
        (default : value) :
  as_sequence t = Some xs ->
  digits ds = true ->
  dget t (index_text negative ds) default
  = match py_index xs (int_group negative ds) with
    | Some x => Ok x
    | None => if int_group negative ds <? 0 then Raise IndexError else Ok default
    end.
Proof.
  intros Hs Hd. unfold dget.
  assert (read_path (index_text negative ds)
          = Ok [ThroughListIndexed (int_group negative ds)]) as ->.
  { rewrite <- (compile_lone_index _ _ Hd). reflexivity. }
  cbn [bind process_commands go_through_list_index]. rewrite Hs.
  remember (int_group negative ds) as i.
  destruct (Z.gtb_spec (Z.of_nat (length xs)) i) as [Hgt|Hle].
  - destruct (py_index xs i) as [x|] eqn:E; [reflexivity|].
    destruct (py_index_none _ _ E) as [H0 _].
    destruct (Z.ltb_spec i 0); [reflexivity|lia].
  - destruct (py_index xs i) as [x|] eqn:E.
    + apply py_index_some in E. lia.
    + destruct (Z.ltb_spec i 0); [lia|reflexivity].
Qed.

Lemma dget_lone_index_witness :
  dget (VList [VInt 1; VInt 2; VInt 3]) (py "[-2]") VNone = Ok (VInt 2)
  /\ dget (VStr (py "abc")) (py "[7]") (VInt 0) = Ok (VInt 0)
  /\ dget (VList [VInt 1]) (py "[-2]") VNone = Raise IndexError.
Proof.
  split; [|split].
  - apply (dget_lone_index _ [VInt 1; VInt 2; VInt 3] true (py "2")); reflexivity.
  - apply (dget_lone_index _ (map (fun c => VStr [c]) (py "abc")) false (py "7"));
      reflexivity.
  - apply (dget_lone_index _ [VInt 1] true (py "2")); reflexivity.
Defined.

(** ** Exceptions of the readers *)








(** Past the limit, a lone index makes the reader raise [ValueError]. *)
Lemma dget_limited_long_numeral (t : value) (negative : bool) (ds : str)
      (default : value) :
  digits ds = true ->
  (int_max_str_digits < length ds)%nat ->
  dget_limited t (index_text negative ds) default = Raise ValueError.
Proof.
  intros Hd Hlong. destruct (digits_inv _ Hd) as [_ Hall].
  unfold dget_limited.
  assert (read_path_limited (index_text negative ds) = Raise ValueError) as ->;
    [|reflexivity].
  unfold read_path_limited.
  change (index_text negative ds) with ("[" :: sign_text negative ++ ds ++ ["]"]).
  cbv beta iota zeta. change (is_slash "[") with false. cbv iota.
  rewrite (separate_brackets_lone _ _ (index_text_tail_plain negative ds Hall)).
  fold (index_text negative ds).
  rewrite (split_no_slash _ (index_text_no_slash _ _ Hd)).
  cbn [each_result]. unfold make_command_limited.
  assert (str_eqb (index_text negative ds) (py "*") = false) as ->.
  { unfold str_eqb. destruct (list_eq_dec ascii_dec _ _) as [E|]; [|reflexivity].
    discriminate E. }
  assert (str_eqb (index_text negative ds) (py "[*]") = false) as ->.
  { unfold str_eqb. destruct (list_eq_dec ascii_dec _ _) as [E|]; [|reflexivity].
    exfalso. unfold index_text in E. destruct negative; [discriminate E|].
    destruct ds as [|d ds]; [discriminate|]. injection E as E _.
    subst d. discriminate. }
  unfold index_text. change (Ascii.eqb "[" "[") with true. cbv iota.
  rewrite (signed_digits_text negative ds [] Hd). unfold int_limited.
  assert ((length ds <=? int_max_str_digits)%nat = false) as ->; [|reflexivity].
  apply Nat.leb_gt. exact Hlong.
Qed.



(** X5. An exception of a segment that is not one of the three that
    [dget2] catches goes through, whatever the default: [ValueError] of a
    malformed number, [AttributeError] of a wildcard on a value without
    [values], [RecursionError] of a key broadcast over a string. *)
Theorem dget2_propagates (t : value) (p : str) (D : value)
        (before after : list str) (key : str) (data : value) (e : exn) :
  split (strip_slash p) = before ++ key :: after ->
  dget2_loop before t = Ok data ->
  dget2_step data key = Raise e ->
  e = ValueError \/ e = AttributeError \/ e = RecursionError ->
  dget2 t p D = Raise e.
Proof.
  intros Hs Hb Hk He. unfold dget2. rewrite Hs, dget2_loop_app, Hb. simpl.
  rewrite Hk. simpl.
  destruct He as [-> | [-> | ->]]; reflexivity.
Qed.

Lemma dget2_propagates_witness :
  dget2 (VDict [(KStr (py "a"), VStr (py "hi"))]) (py "/a/b/c") (VInt 42)
  = Raise RecursionError.
Proof.
  apply (dget2_propagates _ _ _ [py "a"] [py "c"] (py "b") (VStr (py "hi")) RecursionError);
    try reflexivity.
  right; right; reflexivity.
Defined.

(** ** The syntax of paths *)

(** X6. The leading slash is optional for the three entry points, and the
    empty path is accepted by [dget2] and [dset] only: [dget] indexes the
    first character of the path and raises [IndexError]. *)
Theorem leading_slash_optional (t : value) (p : str) (v D : value) :
  starts_with_slash p = false ->
  dget2 t ("/" :: p) D = dget2 t p D
  /\ dset t ("/" :: p) v = dset t p v
  /\ (p <> [] -> dget t ("/" :: p) D = dget t p D)
  /\ dget t [] D = Raise IndexError.
Proof.
  intros Hp.
  assert (strip_slash p = p) as Hs.
  { destruct p as [|c rest]; [reflexivity|]. simpl in *. rewrite Hp. reflexivity. }
  split; [|split; [|split]].
  - unfold dget2. cbn [strip_slash is_slash Ascii.eqb]. simpl. rewrite Hs. reflexivity.
  - unfold dset. simpl. rewrite Hs. reflexivity.
  - intros Hne. destruct p as [|c rest]; [congruence|].
    unfold dget. simpl in *. rewrite Hp. reflexivity.
  - reflexivity.
Qed.

Lemma leading_slash_optional_witness :
  dget2 (VDict [(KStr (py "a"), VInt 1)]) (py "/a") VNone
  = dget2 (VDict [(KStr (py "a"), VInt 1)]) (py "a") VNone.
Proof.
  exact (proj1 (leading_slash_optional (VDict [(KStr (py "a"), VInt 1)]) (py "a")
                  VNone VNone eq_refl)).
Defined.

Lemma int_group_format (index : Z) :
  int_group (index <? 0) (format_index (Z.abs_nat index)) = index.
Proof.
  pose proof (format_index_value (Z.abs_nat index)) as H.
  unfold int_group in *. rewrite H, Zabs2Nat.id_abs.
  destruct (Z.ltb_spec index 0); lia.
Qed.

Lemma compile_command_text (c : command) :
  command_ok c = true -> compile (command_text c) = [c].
Proof.
  destruct c as [ |index| |key]; simpl; intros H; try reflexivity.
  - rewrite (compile_lone_index _ _ (format_index_digits _)), int_group_format.
    reflexivity.
  - exact (compile_plain_key _ H).
Qed.

Lemma command_text_head (c : command) :
  command_ok c = true ->
  exists x rest, command_text c = x :: rest /\ is_slash x = false.
Proof.
  destruct c as [ |index| |key]; simpl; intros H.
  - exists "[", (py "*]"). auto.
  - eexists _, _. split; [reflexivity|reflexivity].
  - exists "*", []. auto.
  - destruct (plain_key_inv _ H) as [Hb _].
    destruct (bare_head _ Hb) as (x & rest & -> & Hx & _). eauto.
Qed.

Lemma compile_join_texts (commands : list command) :
  commands <> [] -> forallb command_ok commands = true ->
  compile (join (map command_text commands)) = commands.
Proof.
  induction commands as [|c cs IH]; [congruence|]. intros _ H.
  simpl in H. apply andb_true_iff in H. destruct H as [Hc Hcs].
  destruct cs as [|c' cs].
  - simpl. exact (compile_command_text _ Hc).
  - change (map command_text (c :: c' :: cs))
      with (command_text c :: map command_text (c' :: cs)).
    rewrite join_cons by discriminate.
    rewrite compile_app_slash, (compile_command_text _ Hc), IH
      by (discriminate || exact Hcs).
    reflexivity.
Qed.

(** X7. Printing and compiling: commands written one per step, [*],
    [[*]], a bracketed integer or a plain key, and joined with slashes,
    compile back to themselves, with or without the leading slash; so every
    such sequence of commands has a path. *)
Theorem read_path_command_texts (leading_slash : bool) (commands : list command) :
  commands <> [] ->
  forallb command_ok commands = true ->
  read_path ((if leading_slash then ["/"] else []) ++ join (map command_text commands))
  = Ok commands.
Proof.
  intros Hne Hok. rewrite <- (compile_join_texts _ Hne Hok) at 2.
  assert (exists x rest, join (map command_text commands) = x :: rest
                         /\ is_slash x = false) as (x & rest & E & Hx).
  { destruct commands as [|c cs]; [congruence|].
    simpl in Hok. apply andb_true_iff in Hok. destruct Hok as [Hc _].
    destruct (command_text_head _ Hc) as (x & rest & E & Hx).
    destruct cs as [|c' cs].
    - exists x, rest. simpl. auto.
    - change (map command_text (c :: c' :: cs))
        with (command_text c :: map command_text (c' :: cs)).
      rewrite join_cons by discriminate. rewrite E.
      exists x, (rest ++ "/" :: join (map command_text (c' :: cs))). auto. }
  rewrite E. destruct leading_slash; simpl; [reflexivity|].
  rewrite Hx. reflexivity.
Qed.

Lemma read_path_command_texts_witness :
  read_path (py "/users/[*]/[-12]/*/name")
  = Ok [ThroughDictKey (py "users"); ThroughListFlat; ThroughListIndexed (-12);
        ThroughDictFlat; ThroughDictKey (py "name")].
Proof.
  apply (read_path_command_texts true
           [ThroughDictKey (py "users"); ThroughListFlat; ThroughListIndexed (-12);
            ThroughDictFlat; ThroughDictKey (py "name")]);
    [discriminate|reflexivity].
Defined.

(** X8. A bracket right after a bare key is a shorthand: [key[*]] and
    [key[i]] compile, and read, as [key/[*]] and [key/[i]] do. *)
Theorem bracket_shorthand (t : value) (token bracket : str) (D : value) :
  bare token = true ->
  (bracket = py "[*]"
   \/ exists negative ds, digits ds = true /\ bracket = index_text negative ds) ->
  compile (token ++ bracket) = compile (token ++ "/" :: bracket)
  /\ dget t (token ++ bracket) D = dget t (token ++ "/" :: bracket) D.
Proof.
  intros Hb Hbr.
  assert (bracket_length bracket = Some (length bracket)
          /\ separate_brackets bracket = bracket) as [Hlen Hsame].
  { destruct Hbr as [->|(negative & ds & Hd & ->)].
    - split; reflexivity.
    - split.
      + rewrite <- (app_nil_r (index_text negative ds)) at 1.
        apply bracket_length_index. exact Hd.
      + destruct (digits_inv _ Hd) as [_ Hall]. unfold index_text.
        apply separate_brackets_lone. apply index_text_tail_plain. exact Hall. }
  assert (compile (token ++ bracket) = compile (token ++ "/" :: bracket)) as Hc.
  { unfold compile.
    rewrite (separate_brackets_after_key _ _ Hb Hlen), separate_brackets_app_slash.
    rewrite (separate_brackets_plain _ (bare_no_bracket _ Hb)), Hsame. reflexivity. }
  split; [exact Hc|].
  destruct (bare_head _ Hb) as (c & rest & -> & Hs & _).
  unfold dget. simpl. rewrite Hs. simpl in Hc. rewrite Hc. reflexivity.
Qed.

Lemma bracket_shorthand_witness :
  dget (VDict [(KStr (py "a"), VList [VInt 4; VInt 5])]) (py "a[*]") VNone
  = dget (VDict [(KStr (py "a"), VList [VInt 4; VInt 5])]) (py "a/[*]") VNone.
Proof.
  apply (bracket_shorthand _ (py "a") (py "[*]") VNone); [reflexivity|].
  left. reflexivity.
Defined.

(** ** Wildcards *)

(** X9. The wildcard on a mapping: [dget] returns the list of its values in
    insertion order, and the default when the mapping is empty; [dget2]
    returns the list of values even when it is empty, and leaves a sequence
    as it is. *)
Theorem wildcard_on_root (default : value) :
  (forall d : dict,
      dget (VDict d) (py "*") default
      = Ok match d with [] => default | _ :: _ => VList (dict_values d) end)
  /\ (forall d : dict, dget2 (VDict d) (py "*") default = Ok (VList (dict_values d)))
  /\ (forall t : value,
         is_sequence t = true -> dget2 t (py "*") default = Ok t).
Proof.
  split; [|split].
  - intros d. unfold dget. simpl. rewrite app_nil_r. destruct d; reflexivity.
  - intros d. reflexivity.
  - intros t Ht. unfold dget2. simpl. unfold dget2_step. simpl. rewrite Ht. reflexivity.
Qed.

Lemma wildcard_on_root_witness :
  dget2 (VList [VInt 1]) (py "*") VNone = Ok (VList [VInt 1]).
Proof. apply (proj2 (proj2 (wildcard_on_root VNone)) (VList [VInt 1])). reflexivity. Defined.

(** ** The writer: where it writes *)

Lemma get_repetition_index_raises (key : str) (e : exn) :
  _get_repetition_index key = Raise e -> e = ValueError.
Proof.
  unfold _get_repetition_index.
  destruct (repetition_search key) as [[k number]|]; [|discriminate].
  destruct (py_int number); [discriminate|congruence].
Qed.

(** X10. Nothing can be written in a root that is not a mapping: [dset]
    raises [TypeError], or [ValueError] when the number of the segment at
    hand is malformed, and leaves the root as it was. *)
Theorem dset_needs_mapping (t : value) (p : str) (v : value) :
  (forall d, t <> VDict d) ->
  fst (dset t p v) = t
  /\ (snd (dset t p v) = Some TypeError \/ snd (dset t p v) = Some ValueError).
Proof.
  intros Ht. unfold dset.
  destruct (removelast (split (strip_slash p))) as [|key rest];
    cbn [dset_loop]; [unfold dset_last|];
    match goal with
    | |- context [_get_repetition_index ?k] =>
        destruct (_get_repetition_index k) as [[[k' index]|]|e] eqn:E
    end;
    try (rewrite (get_repetition_index_raises _ _ E); simpl; auto);
    destruct t; simpl; auto; exfalso; eapply Ht; reflexivity.
Qed.

Lemma dset_needs_mapping_witness :
  fst (dset (VList [VInt 1]) (py "a/b") (VInt 2)) = VList [VInt 1]
  /\ (snd (dset (VList [VInt 1]) (py "a/b") (VInt 2)) = Some TypeError
      \/ snd (dset (VList [VInt 1]) (py "a/b") (VInt 2)) = Some ValueError).
Proof. apply dset_needs_mapping. discriminate. Defined.

Lemma dict_get_set_other (key other : pykey) (x : value) (d : dict) :
  other <> key -> dict_get other (dict_set key x d) = dict_get other d.
Proof.
  intros Hne.
  assert (pykey_eqb other key = false) as Hk.
  { destruct (pykey_eqb other key) eqn:E; [|reflexivity].
    apply pykey_eqb_eq in E. congruence. }
  induction d as [|[k z] d IH]; simpl; [rewrite Hk; reflexivity|].
  destruct (pykey_eqb key k) eqn:E; simpl.
  - apply pykey_eqb_eq in E. subst k. rewrite Hk. reflexivity.
  - rewrite IH. reflexivity.
Qed.

Lemma ensure_key_other (key : str) (other : pykey) (d : dict) :
  other <> KStr key -> dict_get other (ensure_key key d) = dict_get other d.
Proof.
  intros H. unfold ensure_key. destruct (negb (dict_has (KStr key) d)); [|reflexivity].
  apply dict_get_set_other. exact H.
Qed.

Lemma ensure_slot_other (key : str) (index : Z) (other : pykey) (d d1 : dict) :
  other <> KStr key -> ensure_slot key index d = Ok d1 ->
  dict_get other d1 = dict_get other d.
Proof.
  intros H. unfold ensure_slot.
  destruct (dict_get (KStr key) d) as [x|].
  - destruct (py_len x) as [n|]; [|discriminate].
    destruct (Z.of_nat n =? index).
    + destruct x; try discriminate. intros [= <-]. apply dict_get_set_other. exact H.
    + intros [= <-]. reflexivity.
  - intros [= <-]. apply dict_get_set_other. exact H.
Qed.

Lemma dset_last_frame (last_key : str) (d : dict) (v : value) (other : pykey) :
  (forall key, segment_key last_key = Some key -> other <> KStr key) ->
  exists d1, fst (dset_last last_key (VDict d) v) = VDict d1
             /\ dict_get other d1 = dict_get other d.
Proof.
  unfold segment_key, dset_last. intros H.
  destruct (_get_repetition_index last_key) as [[[key index]|]|e].
  - specialize (H key eq_refl).
    destruct (dict_get (KStr key) d) as [x|];
      [|eexists; split; [reflexivity|apply dict_get_set_other; exact H]].
    destruct (py_len x) as [n|]; [|eexists; split; reflexivity].
    destruct (Z.of_nat n =? index).
    + destruct x; try (eexists; split; reflexivity).
      eexists; split; [reflexivity|apply dict_get_set_other; exact H].
    + destruct x; try (eexists; split; reflexivity).
      * destruct (py_setitem items index v); [|eexists; split; reflexivity].
        eexists; split; [reflexivity|apply dict_get_set_other; exact H].
      * eexists; split; [reflexivity|apply dict_get_set_other; exact H].
  - specialize (H last_key eq_refl).
    eexists; split; [reflexivity|apply dict_get_set_other; exact H].
  - eexists; split; reflexivity.
Qed.

Lemma dset_loop_frame (key : str) (rest : list str) (last_key : str)
      (d : dict) (v : value) (other : pykey) :
  (forall k, segment_key key = Some k -> other <> KStr k) ->
  exists d1, fst (dset_loop (key :: rest) last_key (VDict d) v) = VDict d1
             /\ dict_get other d1 = dict_get other d.
Proof.
  unfold segment_key. cbn [dset_loop]. intros H.
  destruct (_get_repetition_index key) as [[[k index]|]|e].
  - specialize (H k eq_refl).
    destruct (ensure_slot k index d) as [d1|e] eqn:Hslot;
      [|eexists; split; reflexivity].
    pose proof (ensure_slot_other _ _ _ _ _ H Hslot) as Hd1.
    destruct (dict_get (KStr k) d1) as [[ | | |s|items|inner]|];
      try (eexists; split; [reflexivity|exact Hd1]).
    + destruct (py_index s index); eexists; (split; [reflexivity|exact Hd1]).
    + destruct (py_position (length items) index) as [p|];
        [|eexists; split; [reflexivity|exact Hd1]].
      destruct (nth_error items p) as [child|];
        [|eexists; split; [reflexivity|exact Hd1]].
      destruct (dset_loop rest last_key child v) as [child' raised].
      eexists; split; [reflexivity|].
      rewrite (dict_get_set_other _ _ _ _ H). exact Hd1.
    + destruct (dict_get (KInt index) inner) as [child|];
        [|eexists; split; [reflexivity|exact Hd1]].
      destruct (dset_loop rest last_key child v) as [child' raised].
      eexists; split; [reflexivity|].
      rewrite (dict_get_set_other _ _ _ _ H). exact Hd1.
  - specialize (H key eq_refl).
    pose proof (ensure_key_other key other d H) as Hd1.
    destruct (dict_get (KStr key) (ensure_key key d)) as [child|];
      [|eexists; split; [reflexivity|exact Hd1]].
    destruct (dset_loop rest last_key child v) as [child' raised].
    eexists; split; [reflexivity|].
    rewrite (dict_get_set_other _ _ _ _ H). exact Hd1.
  - eexists; split; reflexivity.
Qed.

(** X11. A write touches one entry of the root: after [dset], raising or
    not, the root is still a mapping and every key other than the one that
    the first segment addresses holds what it held. *)
Theorem dset_touches_one_key (d : dict) (p : str) (v : value) (other : pykey) :
  (forall key,
      segment_key (hd [] (split (strip_slash p))) = Some key -> other <> KStr key) ->
  exists d1, fst (dset (VDict d) p v) = VDict d1
             /\ dict_get other d1 = dict_get other d.
Proof.
  unfold dset. pose proof (split_nonempty (strip_slash p)) as Hne.
  destruct (split (strip_slash p)) as [|s [|s' rest]]; [congruence| |]; intros H.
  - cbn [removelast last dset_loop]. exact (dset_last_frame _ _ _ _ H).
  - change (removelast (s :: s' :: rest)) with (s :: removelast (s' :: rest)).
    exact (dset_loop_frame _ _ _ _ _ _ H).
Qed.

Lemma dset_touches_one_key_witness :
  exists d1,
    fst (dset (VDict [(KStr (py "a"), VInt 1); (KStr (py "b"), VInt 2)])
              (py "a[0]/x") (VInt 3)) = VDict d1
    /\ dict_get (KStr (py "b")) d1
       = dict_get (KStr (py "b")) [(KStr (py "a"), VInt 1); (KStr (py "b"), VInt 2)].
Proof.
  apply dset_touches_one_key. intros key [= <-]. discriminate.
Defined.

(** ** The writer: paths of plain keys *)

Lemma map_step_text_keys (keys : list str) : map step_text (map Key keys) = keys.
Proof. induction keys as [|k keys IH]; [reflexivity|]. simpl. rewrite IH. reflexivity. Qed.

Lemma step_ok_keys (keys : list str) :
  forallb step_ok (map Key keys) = forallb plain_key keys.
Proof. induction keys as [|k keys IH]; [reflexivity|]. simpl. rewrite IH. reflexivity. Qed.

Lemma step_commands_keys (keys : list str) :
  flat_map step_commands (map Key keys) = map ThroughDictKey keys.
Proof. induction keys as [|k keys IH]; [reflexivity|]. simpl. rewrite IH. reflexivity. Qed.

Lemma dset_loop_keys_cons (k k' : str) (keys : list str) (t v : value) :
  dset_loop (removelast (k :: k' :: keys)) (last (k :: k' :: keys) []) t v
  = dset_loop (k :: removelast (k' :: keys)) (last (k' :: keys) []) t v.
Proof. reflexivity. Qed.

Lemma dset_keys_read (keys : list str) :
  forall (t v t' : value),
    keys <> [] ->
    forallb plain_key keys = true ->
    dset_loop (removelast keys) (last keys []) t v = (t', None) ->
    process_commands (map ThroughDictKey keys) [t'] = Ok [v].
Proof.
  induction keys as [|k keys IH]; intros t v t' Hne Hok Hw; [congruence|].
  simpl in Hok. apply andb_true_iff in Hok. destruct Hok as [Hk Hok].
  destruct keys as [|k' keys].
  - cbn [removelast last dset_loop] in Hw. unfold dset_last in Hw.
    rewrite (get_repetition_index_key _ Hk) in Hw.
    destruct t; try discriminate. injection Hw as <-.
    cbn [map process_commands go_through_dict_key]. rewrite dict_get_set_same. reflexivity.
  - rewrite dset_loop_keys_cons in Hw. cbn [dset_loop] in Hw.
    rewrite (get_repetition_index_key _ Hk) in Hw.
    destruct t as [ | | | | |d]; try discriminate.
    destruct (dict_get (KStr k) (ensure_key k d)) as [child|]; [|discriminate].
    destruct (dset_loop (removelast (k' :: keys)) (last (k' :: keys) []) child v)
      as [child' raised] eqn:Ec.
    injection Hw as <- ->.
    change (map ThroughDictKey (k :: k' :: keys))
      with (ThroughDictKey k :: map ThroughDictKey (k' :: keys)).
    cbn [process_commands go_through_dict_key]. rewrite dict_get_set_same.
    exact (IH child v child' ltac:(discriminate) Hok Ec).
Qed.

Lemma dset_keys_from_empty (keys : list str) (v : value) :
  keys <> [] ->
  forallb plain_key keys = true ->
  dset_loop (removelast keys) (last keys []) (VDict []) v = (nest keys v, None).
Proof.
  induction keys as [|k keys IH]; intros Hne Hok; [congruence|].
  simpl in Hok. apply andb_true_iff in Hok. destruct Hok as [Hk Hok].
  destruct keys as [|k' keys].
  - cbn [removelast last dset_loop]. unfold dset_last.
    rewrite (get_repetition_index_key _ Hk). reflexivity.
  - rewrite dset_loop_keys_cons. cbn [dset_loop].
    rewrite (get_repetition_index_key _ Hk).
    unfold ensure_key. cbn [dict_has dict_get negb dict_set].
    rewrite pykey_eqb_refl.
    rewrite (IH ltac:(discriminate) Hok). reflexivity.
Qed.

Lemma keys_paths (keys : list str) :
  keys <> [] -> forallb plain_key keys = true ->
  split (strip_slash (join keys)) = keys
  /\ read_path (join keys) = Ok (map ThroughDictKey keys).
Proof.
  intros Hne Hok.
  assert (map Key keys <> []) as Hne' by (destruct keys; [congruence|discriminate]).
  pose proof (step_ok_keys keys) as Hok'. rewrite Hok in Hok'.
  pose proof (strip_slash_path_text false _ Hne' Hok') as Hs.
  pose proof (split_steps _ Hne' Hok') as Hsp.
  pose proof (read_path_steps false _ Hne' Hok') as Hr.
  unfold path_text in Hs, Hr. change ([] ++ ?x) with x in Hs, Hr.
  rewrite map_step_text_keys in Hs, Hsp, Hr. rewrite step_commands_keys in Hr.
  rewrite Hs. auto.
Qed.

Lemma map_dict_key_no_flat (keys : list str) : has_flat (map ThroughDictKey keys) = false.
Proof. induction keys as [|k keys IH]; [reflexivity|exact IH]. Qed.

(** X12. Along a path of plain keys the writer makes the mappings that are
    missing: whenever [dset] returns without raising, [dget] reads the
    written value back, whether the path existed or not; and from the empty
    mapping [dset] never raises and builds one mapping inside the other. *)
Theorem dset_creates_path (keys : list str) (v D : value) :
  keys <> [] ->
  forallb plain_key keys = true ->
  (forall t t' : value,
      dset t (join keys) v = (t', None) -> dget t' (join keys) D = Ok v)
  /\ dset (VDict []) (join keys) v = (nest keys v, None).
Proof.
  intros Hne Hok. destruct (keys_paths _ Hne Hok) as [Hs Hr]. split.
  - intros t t' Hw. unfold dset in Hw. rewrite Hs in Hw.
    rewrite (dget_unfold t' _ D _ [v] Hr (dset_keys_read _ _ _ _ Hne Hok Hw)).
    rewrite map_dict_key_no_flat. reflexivity.
  - unfold dset. rewrite Hs. exact (dset_keys_from_empty _ _ Hne Hok).
Qed.

Lemma dset_creates_path_witness :
  dset (VDict []) (py "a/b/c") (VInt 1)
  = (VDict [(KStr (py "a"), VDict [(KStr (py "b"), VDict [(KStr (py "c"), VInt 1)])])],
     None).
Proof.
  exact (proj2 (dset_creates_path [py "a"; py "b"; py "c"] (VInt 1) VNone
                  ltac:(discriminate) eq_refl)).
Defined.

(** ** The writer and the legacy reader *)

Lemma dget2_step_key (d : dict) (key : str) (x : value) :
  _get_repetition_index key = Ok None ->
  str_eqb key (py "*") = false ->
  dict_get (KStr key) d = Some x ->
  dget2_step (VDict d) key = Ok x.
Proof.
  intros Hrep Hstar Hget. unfold dget2_step. rewrite Hrep. cbn [bind].
  rewrite Hstar. cbn [negb].
  change (_flatdget (VDict d) (KStr key)) with (getitem (VDict d) (KStr key)).
  unfold getitem. rewrite Hget. reflexivity.
Qed.

Lemma dget2_step_reference (d : dict) (segment key : str) (index : Z) (x y : value) :
  _get_repetition_index segment = Ok (Some (key, index)) ->
  str_eqb key (py "*") = false ->
  dict_get (KStr key) d = Some x ->
  getitem x (KInt index) = Ok y ->
  dget2_step (VDict d) segment = Ok y.
Proof.
  intros Hrep Hstar Hget Hy. unfold dget2_step. rewrite Hrep. cbn [bind].
  rewrite Hstar. cbn [negb].
  change (_flatdget (VDict d) (KStr key)) with (getitem (VDict d) (KStr key)).
  unfold getitem at 1. rewrite Hget. cbn [bind].
  rewrite flatdget_index. exact Hy.
Qed.

Lemma getitem_list (items : list value) (index : Z) (y : value) :
  py_index items index = Some y -> getitem (VList items) (KInt index) = Ok y.
Proof. intros H. simpl. rewrite H. reflexivity. Qed.

Lemma py_index_appended {A} (xs : list A) (x : A) :
  py_index (xs ++ [x]) (Z.of_nat (length xs)) = Some x.
Proof.
  apply py_index_at. rewrite nth_error_app2 by lia. rewrite Nat.sub_diag. reflexivity.
Qed.

Lemma dset_last_dget2 (last_key : str) (data v t1 : value) :
  dset_last last_key data v = (t1, None) ->
  names_wildcard last_key = false ->
  creates_out_of_reach last_key data = false ->
  dget2_step t1 last_key = Ok v.
Proof.
  unfold dset_last, names_wildcard, creates_out_of_reach.
  destruct (_get_repetition_index last_key) as [[[key index]|]|e] eqn:Hrep;
    [| |discriminate].
  - destruct data as [ | | | | |d]; try discriminate.
    unfold dict_has. destruct (dict_get (KStr key) d) as [x|] eqn:Hget.
    + destruct (py_len x) as [n|] eqn:Hn; [|discriminate].
      destruct (Z.of_nat n =? index) eqn:Hi.
      * destruct x as [ | | | |items| ]; try discriminate.
        intros [= <-] Hstar _. simpl in Hn. injection Hn as <-.
        apply Z.eqb_eq in Hi. subst index.
        apply (dget2_step_reference _ _ _ _ _ _ Hrep Hstar (dict_get_set_same _ _ _)).
        apply getitem_list. apply py_index_appended.
      * destruct x as [ | | | |items|inner]; try discriminate.
        -- unfold py_setitem.
           destruct (py_position (length items) index) as [p|] eqn:Hp; [|discriminate].
           intros [= <-] Hstar _.
           apply (dget2_step_reference _ _ _ _ _ _ Hrep Hstar (dict_get_set_same _ _ _)).
           apply getitem_list. exact (py_index_list_set _ _ _ _ Hp).
        -- intros [= <-] Hstar _.
           apply (dget2_step_reference _ _ _ _ _ _ Hrep Hstar (dict_get_set_same _ _ _)).
           simpl. rewrite dict_get_set_same. reflexivity.
    + intros [= <-] Hstar Hc. cbn [negb andb] in Hc.
      apply (dget2_step_reference _ _ _ _ _ _ Hrep Hstar (dict_get_set_same _ _ _)).
      apply getitem_list.
      destruct (Z.eqb_spec index 0) as [->|]; [reflexivity|].
      destruct (Z.eqb_spec index (-1)) as [->|]; [reflexivity|discriminate].
  - destruct data as [ | | | | |d]; try discriminate.
    intros [= <-] Hstar _.
    exact (dget2_step_key _ _ _ Hrep Hstar (dict_get_set_same _ _ _)).
Qed.

Lemma dset_loop_dget2 (keys : list str) :
  forall (last_key : str) (data v t1 cursor : value),
    dset_loop keys last_key data v = (t1, None) ->
    existsb names_wildcard keys = false ->
    names_wildcard last_key = false ->
    dset_cursor keys data = Some cursor ->
    creates_out_of_reach last_key cursor = false ->
    dget2_loop (keys ++ [last_key]) t1 = Ok v.
Proof.
  induction keys as [|key rest IH]; intros last_key data v t1 cursor.
  - cbn [dset_loop dset_cursor]. intros Hw _ Hstar [= <-] Hc.
    change (dget2_loop ([] ++ [last_key]) t1)
      with (data' <- dget2_step t1 last_key ;; Ok data').
    rewrite (dset_last_dget2 _ _ _ _ Hw Hstar Hc). reflexivity.
  - cbn [dset_loop dset_cursor existsb]. unfold names_wildcard at 1.
    change ((key :: rest) ++ [last_key]) with (key :: (rest ++ [last_key])).
    cbn [dget2_loop].
    destruct (_get_repetition_index key) as [[[k index]|]|e] eqn:Hrep; [| |discriminate].
    + destruct data as [ | | | | |d]; try discriminate.
      destruct (ensure_slot k index d) as [d1|e] eqn:Hslot; [|discriminate].
      destruct (dict_get (KStr k) d1) as [[ | | |s|items|inner]|] eqn:Hx;
        try discriminate.
      * destruct (py_index s index) as [c|]; [|discriminate].
        intros [= _ Hraised]. exfalso. revert Hraised.
        apply dset_loop_not_mapping. discriminate.
      * unfold py_index.
        destruct (py_position (length items) index) as [p|] eqn:Hp; [|discriminate].
        destruct (nth_error items p) as [child|] eqn:Hnth; [|discriminate].
        destruct (dset_loop rest last_key child v) as [child' raised] eqn:Hrec.
        intros [= <- ->] Hw Hstar Hcur Hc.
        apply orb_false_iff in Hw. destruct Hw as [Hk Hw].
        rewrite (dget2_step_reference _ _ _ _ _ child' Hrep Hk (dict_get_set_same _ _ _)
                   (getitem_list _ _ _ (py_index_list_set _ _ _ _ Hp))).
        cbn [bind]. exact (IH _ _ _ _ _ Hrec Hw Hstar Hcur Hc).
      * destruct (dict_get (KInt index) inner) as [child|] eqn:Hchild; [|discriminate].
        destruct (dset_loop rest last_key child v) as [child' raised] eqn:Hrec.
        intros [= <- ->] Hw Hstar Hcur Hc.
        apply orb_false_iff in Hw. destruct Hw as [Hk Hw].
        assert (getitem (VDict (dict_set (KInt index) child' inner)) (KInt index)
                = Ok child') as Hy by (simpl; rewrite dict_get_set_same; reflexivity).
        rewrite (dget2_step_reference _ _ _ _ _ child' Hrep Hk (dict_get_set_same _ _ _) Hy).
        cbn [bind]. exact (IH _ _ _ _ _ Hrec Hw Hstar Hcur Hc).
    + destruct data as [ | | | | |d]; try discriminate.
      destruct (dict_get (KStr key) (ensure_key key d)) as [child|] eqn:Hget;
        [|discriminate].
      destruct (dset_loop rest last_key child v) as [child' raised] eqn:Hrec.
      intros [= <- ->] Hw Hstar Hcur Hc.
      apply orb_false_iff in Hw. destruct Hw as [Hk Hw].
      rewrite (dget2_step_key _ _ child' Hrep Hk (dict_get_set_same _ _ _)).
      cbn [bind]. exact (IH _ _ _ _ _ Hrec Hw Hstar Hcur Hc).
Qed.

(** X13. The writer and the legacy reader parse segments alike, whatever
    the characters of the keys: when [dset] returns without raising and no
    segment names the wildcard, [dget2] reads the written value back along
    the same path, unless the last segment made a list of one element for a
    missing key with an index other than 0 and -1. *)
Theorem dset_dget2_roundtrip (t : value) (p : str) (v t1 cursor D : value) :
  dset t p v = (t1, None) ->
  existsb names_wildcard (split (strip_slash p)) = false ->
  dset_cursor (removelast (split (strip_slash p))) t = Some cursor ->
  creates_out_of_reach (last (split (strip_slash p)) []) cursor = false ->
  dget2 t1 p D = Ok v.
Proof.
  unfold dset, dget2. intros Hw Hstar Hcur Hc.
  pose proof (app_removelast_last [] (split_nonempty (strip_slash p))) as Hsegs.
  rewrite Hsegs, existsb_app in Hstar. apply orb_false_iff in Hstar.
  destruct Hstar as [Hkeys Hlast]. cbn [existsb] in Hlast.
  rewrite orb_false_r in Hlast.
  pose proof (dset_loop_dget2 _ _ _ _ _ _ Hw Hkeys Hlast Hcur Hc) as H.
  assert (dget2_loop (split (strip_slash p)) t1 = Ok v) as ->
      by (rewrite Hsegs; exact H).
  reflexivity.
Qed.

Lemma dset_dget2_roundtrip_witness :
  dget2 (VDict [(KStr (py "a-b"), VList [VInt 5]); (KStr (py "b"), VList [VInt 9])])
        (py "a-b[0]") VNone
  = Ok (VInt 9).
Proof.
  apply (dset_dget2_roundtrip (VDict [(KStr (py "a-b"), VList [VInt 5])])
           (py "a-b[0]") (VInt 9) _ (VDict [(KStr (py "a-b"), VList [VInt 5])]));
    reflexivity.
Defined.

(** ** The walker: what it yields *)

(** X14. The walker yields leaves only: a value yielded with a path is
    never a mapping nor a list, whatever the tree and whether or not the
    walk ends by raising. *)
Theorem dwalk_yields_scalars (t : value) (path : str) (leaf : value) :
  In (path, leaf) (fst (dwalk t)) -> is_scalar leaf = true.
Proof.
  unfold dwalk. generalize (@nil pykey) as acc. revert path leaf.
  induction t as [ | b | z | s | xs IH | d IH] using value_ind_nested;
    intros path leaf acc;
    try (cbn [_dwalk_with_path]; destruct (str_components acc);
         [intros [[= _ <-]|[]]; reflexivity|intros []]).
  - cbn [_dwalk_with_path]. intros H.
    apply yield_from_all_in in H. destruct H as (g & Hg & Hin).
    apply enumerate_with_in in Hg. destruct Hg as (n & x & Hn & ->).
    rewrite Forall_forall in IH.
    destruct (annotate_last acc (0 + n)); [|contradiction].
    exact (IH x (nth_error_In _ _ Hn) _ _ _ Hin).
  - cbn [_dwalk_with_path]. intros H.
    apply yield_from_all_in in H. destruct H as (g & Hg & Hin).
    apply in_map_iff in Hg. destruct Hg as ([key x] & <- & Hd).
    rewrite Forall_forall in IH.
    exact (IH (key, x) Hd _ _ _ Hin).
Qed.

Lemma dwalk_yields_scalars_witness :
  is_scalar (VStr (py "Al")) = true.
Proof.
  apply (dwalk_yields_scalars
           (VDict [(KStr (py "users"), VList [VDict [(KStr (py "name"), VStr (py "Al"))]])])
           (py "users[0]/name")).
  left. reflexivity.
Defined.

Lemma annotate_last_strs (parts : list str) (index : nat) :
  parts <> [] ->
  exists parts', parts' <> [] /\ annotate_last (map KStr parts) index = Ok (map KStr parts').
Proof.
  intros Hne. destruct (exists_last Hne) as (parts0 & key & ->).
  rewrite annotate_last_key. eexists. split; [|reflexivity].
  destruct parts0; discriminate.
Qed.

Lemma then_yield_values (a b : yielded) :
  snd a = None ->
  snd (then_yield a b) = snd b
  /\ map snd (fst (then_yield a b)) = map snd (fst a) ++ map snd (fst b).
Proof.
  destruct a as [pairs [e|]]; simpl; [discriminate|]. intros _.
  rewrite map_app. auto.
Qed.

Lemma walk_leaves (v : value) :
  forall parts : list str,
    str_keyed v = true ->
    (forall xs, v = VList xs -> parts <> []) ->
    snd (_dwalk_with_path v (map KStr parts)) = None
    /\ map snd (fst (_dwalk_with_path v (map KStr parts))) = leaves v.
Proof.
  induction v as [ | b | z | s | xs IH | d IH] using value_ind_nested;
    intros parts Hk Hparts;
    try (cbn [_dwalk_with_path]; rewrite str_components_strs; split; reflexivity).
  - (* a list *)
    specialize (Hparts xs eq_refl). cbn [str_keyed] in Hk.
    cbn [_dwalk_with_path leaves]. generalize 0%nat as start.
    induction xs as [|x xs IHxs]; intros start; [split; reflexivity|].
    inversion IH as [|? ? Hx Hxs]; subst.
    cbn [forallb] in Hk. apply andb_true_iff in Hk. destruct Hk as [Hkx Hkxs].
    cbn [enumerate_with yield_from_all fold_right flat_map].
    destruct (annotate_last_strs parts start Hparts) as (parts' & Hne' & ->).
    destruct (Hx parts' Hkx (fun _ _ => Hne')) as [Hnone Hvals].
    destruct (then_yield_values _ (yield_from_all (enumerate_with
               (fun index value =>
                  match annotate_last (map KStr parts) index with
                  | Ok subpath => _dwalk_with_path value subpath
                  | Raise e => ([], Some e)
                  end) (S start) xs)) Hnone) as [Hs Hm].
    destruct (IHxs Hxs Hkxs (S start)) as [Hrest Hrestv].
    unfold yield_from_all in Hrest, Hrestv.
    split.
    + unfold yield_from_all in Hs. rewrite Hs. exact Hrest.
    + unfold yield_from_all in Hm. rewrite Hm, Hvals, Hrestv. reflexivity.
  - (* a mapping *)
    cbn [str_keyed] in Hk. cbn [_dwalk_with_path leaves]. clear Hparts.
    induction d as [|[key x] d IHd]; [split; reflexivity|].
    inversion IH as [|? ? Hx Hd]; subst. cbn [snd] in Hx.
    cbn [forallb] in Hk. apply andb_true_iff in Hk. destruct Hk as [Hkx Hkd].
    apply andb_true_iff in Hkx. destruct Hkx as [Hkey Hkx].
    destruct key as [s|i]; [|discriminate].
    cbn [map yield_from_all fold_right flat_map]. cbv zeta.
    change (map KStr parts ++ [KStr s]) with (map KStr parts ++ map KStr [s]).
    rewrite <- map_app.
    assert (forall xs, x = VList xs -> parts ++ [s] <> []) as Hne
        by (intros _ _; destruct parts; discriminate).
    destruct (Hx (parts ++ [s]) Hkx Hne) as [Hnone Hvals].
    destruct (then_yield_values _ (yield_from_all (map
               (fun '(key, value) =>
                  let subpath := map KStr parts ++ [key] in
                  _dwalk_with_path value subpath) d)) Hnone) as [Hs Hm].
    destruct (IHd Hd Hkd) as [Hrest Hrestv].
    unfold yield_from_all in Hrest, Hrestv, Hs, Hm.
    split.
    + rewrite Hs. exact Hrest.
    + rewrite Hm, Hvals, Hrestv. reflexivity.
Qed.

(** X15. On a tree whose keys are all strings and whose root is not a
    list, the walker ends without raising, whatever the characters of the
    keys and however lists are nested, and yields every leaf once, depth
    first in the order of the keys and of the indices. *)
Theorem dwalk_enumerates_leaves (t : value) :
  str_keyed t = true ->
  (forall xs, t <> VList xs) ->
  snd (dwalk t) = None /\ map snd (fst (dwalk t)) = leaves t.
Proof.
  intros Hk Hroot. unfold dwalk. change (@nil pykey) with (map KStr []).
  apply walk_leaves; [exact Hk|]. intros xs ->. exfalso. exact (Hroot xs eq_refl).
Qed.

Lemma dwalk_enumerates_leaves_witness :
  let t := VDict [(KStr (py "a/b"), VList [VList [VInt 1; VInt 2]; VInt 3]);
                  (KStr (py "*"), VNone)] in
  snd (dwalk t) = None /\ map snd (fst (dwalk t)) = [VInt 1; VInt 2; VInt 3; VNone].
Proof.
  intros t. apply (dwalk_enumerates_leaves t); [reflexivity|discriminate].
Defined.

(** ** Broadcasting and fanning out *)

Lemma each_flatdget_all_hold (key : str) (items : list value) :
  all_hold key items = true ->
  each_result (fun value => _flatdget value (KStr key)) items
  = Ok (go_through_dict_key key items).
Proof.
  induction items as [|item items IH]; [reflexivity|].
  simpl. intros H. apply andb_true_iff in H. destruct H as [Hi H].
  destruct item as [ | | | | |d]; try discriminate.
  unfold dict_has in Hi. cbn [_flatdget getitem].
  destruct (dict_get (KStr key) d) as [x|]; [|discriminate].
  cbn [bind]. rewrite (IH H). reflexivity.
Qed.

(** X16. Over a list of mappings that all hold the key, the legacy
    reader's broadcast of the key is the fan-out [[*]/key] of [dget]: both
    return the list of the values under the key, in the order of the
    list. *)
Theorem broadcast_is_fan_out (items : list value) (key : str) (D : value) :
  items <> [] ->
  plain_key key = true ->
  all_hold key items = true ->
  dget2 (VList items) key D = Ok (VList (go_through_dict_key key items))
  /\ dget (VList items) (py "[*]" ++ "/" :: key) D
     = Ok (VList (go_through_dict_key key items)).
Proof.
  intros Hne Hk Hall. destruct (plain_key_inv _ Hk) as [Hb Hstar].
  apply str_eqb_neq in Hstar. split.
  - unfold dget2.
    destruct (bare_head _ Hb) as (c & rest & E & Hs & _).
    assert (strip_slash key = key) as -> by (rewrite E; simpl; rewrite Hs; reflexivity).
    rewrite (split_no_slash _ (bare_no_slash _ Hb)). cbn [dget2_loop].
    unfold dget2_step. rewrite (get_repetition_index_key _ Hk). cbn [bind].
    rewrite Hstar. cbn [negb _flatdget].
    rewrite (each_flatdget_all_hold _ _ Hall). reflexivity.
  - assert (read_path (py "[*]" ++ "/" :: key) = Ok [ThroughListFlat; ThroughDictKey key])
      as Hr.
    { change (read_path (py "[*]" ++ "/" :: key))
        with (Ok (compile (py "[*]" ++ "/" :: key)) : result (list command)).
      rewrite compile_app_slash, (compile_plain_key _ Hk). reflexivity. }
    assert (process_commands [ThroughListFlat; ThroughDictKey key] [VList items]
            = Ok (go_through_dict_key key items)) as Hp.
    { cbn [process_commands go_through_list_flat as_sequence]. rewrite app_nil_r.
      reflexivity. }
    rewrite (dget_unfold _ _ D _ _ Hr Hp).
    destruct items as [|item items]; [congruence|].
    simpl in Hall. apply andb_true_iff in Hall. destruct Hall as [Hi _].
    destruct item as [ | | | | |d]; try discriminate.
    unfold dict_has in Hi. cbn [go_through_dict_key].
    destruct (dict_get (KStr key) d); [reflexivity|discriminate Hi].
Qed.

Lemma broadcast_is_fan_out_witness :
  dget2 (VList [VDict [(KStr (py "name"), VStr (py "Al"))];
                VDict [(KStr (py "name"), VStr (py "Bo"))]]) (py "name") VNone
  = Ok (VList [VStr (py "Al"); VStr (py "Bo")]).
Proof.
  apply (broadcast_is_fan_out
           [VDict [(KStr (py "name"), VStr (py "Al"))];
            VDict [(KStr (py "name"), VStr (py "Bo"))]] (py "name") VNone);
    [discriminate|reflexivity|reflexivity].
Defined.

(** ** Appending a record *)

(** X17. A repetition segment before the last one, whose index is the
    length of the list under its key, appends a new mapping that holds the
    written value under the last key; when the key is missing, index 0
    makes the list of that one mapping. *)
Theorem dset_appends_record (d : dict) (key field : str) (v : value) :
  word_key key = true ->
  plain_key field = true ->
  (forall items : list value,
      dict_get (KStr key) d = Some (VList items) ->
      dset (VDict d)
           (path_text false [KeyAt key false (format_index (length items)); Key field]) v
      = (VDict (dict_set (KStr key) (VList (items ++ [VDict [(KStr field, v)]])) d), None))
  /\ (dict_get (KStr key) d = None ->
      dset (VDict d) (path_text false [KeyAt key false (py "0"); Key field]) v
      = (VDict (dict_set (KStr key) (VList [VDict [(KStr field, v)]]) d), None)).
Proof.
  intros Hk Hf.
  assert (forall ds, digits ds = true ->
            dset (VDict d) (path_text false [KeyAt key false ds; Key field]) v
            = dset_loop [key ++ index_text false ds] field (VDict d) v) as Hpath.
  { intros ds Hd. unfold dset.
    assert (forallb step_ok [KeyAt key false ds; Key field] = true) as Hok
        by (simpl; rewrite Hk, Hd, Hf; reflexivity).
    assert ([KeyAt key false ds; Key field] <> []) as Hne by discriminate.
    rewrite (strip_slash_path_text false _ Hne Hok).
    rewrite (split_steps _ Hne Hok). reflexivity. }
  split.
  - intros items Hget. rewrite (Hpath _ (format_index_digits _)).
    cbn [dset_loop].
    rewrite (get_repetition_index_key_at _ _ _ Hk (format_index_digits _)),
      format_index_value.
    unfold ensure_slot. rewrite Hget. cbn [py_len]. rewrite Z.eqb_refl.
    rewrite dict_get_set_same, length_app, Nat.add_1_r, py_position_length.
    rewrite nth_error_app2 by lia. rewrite Nat.sub_diag. cbn [nth_error].
    unfold dset_last. rewrite (get_repetition_index_key _ Hf).
    cbn [dict_set]. rewrite list_set_last, dict_set_twice. reflexivity.
  - intros Hget. rewrite (Hpath (py "0") eq_refl).
    cbn [dset_loop].
    rewrite (get_repetition_index_key_at key false (py "0") Hk eq_refl).
    unfold ensure_slot. rewrite Hget. rewrite dict_get_set_same.
    change (int_group false (py "0")) with 0.
    cbn [length py_position Z.leb Z.ltb Z.of_nat Z.compare Pos.of_succ_nat Z.to_nat
           nth_error].
    unfold dset_last. rewrite (get_repetition_index_key _ Hf).
    cbn [dict_set list_set]. rewrite dict_set_twice. reflexivity.
Qed.

Lemma dset_appends_record_witness :
  dset (VDict [(KStr (py "items"), VList [VDict [(KStr (py "v"), VStr (py "x"))]])])
       (py "items[1]/v") (VStr (py "y"))
  = (VDict [(KStr (py "items"),
             VList [VDict [(KStr (py "v"), VStr (py "x"))];
                    VDict [(KStr (py "v"), VStr (py "y"))]])], None).
Proof.
  apply (proj1 (dset_appends_record
                  [(KStr (py "items"), VList [VDict [(KStr (py "v"), VStr (py "x"))]])]
                  (py "items") (py "v") (VStr (py "y")) eq_refl eq_refl)
               [VDict [(KStr (py "v"), VStr (py "x"))]]).
  reflexivity.
Defined.

(** ** Paths of the walker and the legacy reader *)

Lemma split_join (parts : list str) :
  parts <> [] -> forallb no_slash parts = true -> split (join parts) = parts.
Proof.
  induction parts as [|p parts IH]; [congruence|]. intros _ H.
  simpl in H. apply andb_true_iff in H. destruct H as [Hp Hrest].
  destruct parts as [|q parts].
  - simpl. exact (split_no_slash _ Hp).
  - rewrite join_cons by discriminate.
    rewrite split_app_slash, (split_no_slash _ Hp), IH by (discriminate || exact Hrest).
    reflexivity.
Qed.

Lemma strip_slash_first_segment (p : str) :
  hd [] (split p) <> [] -> strip_slash p = p.
Proof.
  destruct p as [|c rest]; [reflexivity|]. simpl.
  destruct (is_slash c); [simpl; congruence|reflexivity].
Qed.

Lemma bind_ok {A} (r : result A) : (x <- r ;; Ok x) = r.
Proof. destruct r; reflexivity. Qed.

Lemma dget2_loop_snoc (parts : list str) (segment : str) (root data : value) :
  dget2_loop parts root = Ok data ->
  dget2_loop (parts ++ [segment]) root = dget2_step data segment.
Proof.
  intros H. rewrite dget2_loop_app, H. cbn [bind dget2_loop]. apply bind_ok.
Qed.

Lemma hd_app_nonempty (parts : list str) (s : str) :
  parts <> [] -> hd [] (parts ++ [s]) = hd [] parts.
Proof. destruct parts; [congruence|reflexivity]. Qed.

Lemma legacy_walk_sound (v : value) :
  forall (inside_list : bool) (parts : list str) (root : value),
    legacy_walkable inside_list v = true ->
    parts <> [] ->
    hd [] parts <> [] ->
    forallb no_slash parts = true ->
    dget2_loop parts root = Ok v ->
    (inside_list = false ->
     exists parts0 key parent,
       parts = parts0 ++ [key]
       /\ (forall xs, v = VList xs -> word_key key = true)
       /\ dget2_loop parts0 root = Ok (VDict parent)
       /\ dict_get (KStr key) parent = Some v) ->
    forall p leaf,
      In (p, leaf) (fst (_dwalk_with_path v (map KStr parts))) ->
      hd [] (split p) <> [] /\ dget2_loop (split p) root = Ok leaf.
Proof.
  induction v as [ | b | z | s | xs IH | d IH] using value_ind_nested;
    intros inside_list parts root Hw Hne Hhd Hns Hreach Hlast;
    try (cbn [_dwalk_with_path]; rewrite str_components_strs;
         intros p leaf [[= <- <-]|[]];
         rewrite (split_join _ Hne Hns); split; assumption).
  - (* a list: it hangs under a key of word characters *)
    cbn [legacy_walkable] in Hw. apply andb_true_iff in Hw. destruct Hw as [Hin Hxs].
    destruct inside_list; [discriminate|].
    destruct (Hlast eq_refl) as (parts0 & key & parent & -> & Hword & Hparent & Hget).
    specialize (Hword xs eq_refl).
    rewrite forallb_forall in Hxs. rewrite Forall_forall in IH.
    cbn [_dwalk_with_path]. intros p leaf Hp.
    apply yield_from_all_in in Hp. destruct Hp as (g & Hg & Hp).
    apply enumerate_with_in in Hg. destruct Hg as (n & x & Hn & ->).
    simpl in Hp. rewrite annotate_last_key in Hp.
    pose proof (nth_error_In _ _ Hn) as Hx.
    assert (step_ok (KeyAt key false (format_index n)) = true) as Hstep
        by (simpl; rewrite Hword, format_index_digits; reflexivity).
    refine (IH x Hx true (parts0 ++ [key ++ index_text false (format_index n)]) root
               (Hxs x Hx) _ _ _ _ _ p leaf Hp).
    + destruct parts0; discriminate.
    + destruct parts0 as [|q parts0]; [|exact Hhd].
      simpl. destruct key; [discriminate|discriminate].
    + rewrite forallb_app in Hns |- *. apply andb_true_iff in Hns.
      destruct Hns as [Hns0 _]. rewrite Hns0. cbn [forallb].
      pose proof (step_text_no_slash _ Hstep) as Hns1. cbn [step_text] in Hns1.
      rewrite Hns1. reflexivity.
    + rewrite (dget2_loop_snoc _ _ _ _ Hparent).
      destruct (word_key_inv _ Hword) as (_ & _ & Hplain).
      destruct (plain_key_inv _ Hplain) as [_ Hstar]. apply str_eqb_neq in Hstar.
      exact (dget2_step_reference _ _ _ _ _ _
               (get_repetition_index_key_at _ _ _ Hword (format_index_digits n))
               Hstar Hget
               (getitem_list _ _ _
                  (eq_trans (f_equal (py_index xs) (format_index_value n))
                            (py_index_at _ _ _ Hn)))).
    + discriminate.
  - (* a mapping *)
    cbn [legacy_walkable] in Hw. apply andb_true_iff in Hw. destruct Hw as [Hu Hd].
    rewrite forallb_forall in Hd. rewrite Forall_forall in IH.
    cbn [_dwalk_with_path]. intros p leaf Hp.
    apply yield_from_all_in in Hp. destruct Hp as (g & Hg & Hp).
    apply in_map_iff in Hg. destruct Hg as ([key x] & <- & Hin).
    specialize (Hd _ Hin). cbn beta iota in Hd.
    apply andb_true_iff in Hd. destruct Hd as [Hk Hx].
    destruct key as [s|i]; [|discriminate].
    apply andb_true_iff in Hk. destruct Hk as [Hplain Hword].
    destruct (plain_key_inv _ Hplain) as [Hb Hstar]. apply str_eqb_neq in Hstar.
    cbv zeta in Hp.
    change (map KStr parts ++ [KStr s]) with (map KStr parts ++ map KStr [s]) in Hp.
    rewrite <- map_app in Hp.
    refine (IH (KStr s, x) Hin false (parts ++ [s]) root Hx _ _ _ _ _ p leaf Hp).
    + destruct parts; discriminate.
    + rewrite (hd_app_nonempty _ _ Hne). exact Hhd.
    + rewrite forallb_app, Hns. cbn [forallb]. rewrite (bare_no_slash _ Hb). reflexivity.
    + rewrite (dget2_loop_snoc _ _ _ _ Hreach).
      exact (dget2_step_key _ _ _ (get_repetition_index_key _ Hplain) Hstar
               (dict_get_in _ _ _ Hu Hin)).
    + intros _. exists parts, s, d. split; [reflexivity|]. split.
      * intros xs E. cbn [snd] in E. rewrite E in Hword. exact Hword.
      * split; [exact Hreach|exact (dict_get_in _ _ _ Hu Hin)].
Qed.

(** X18. The legacy reader reads the walker's paths back as well: on a
    mapping whose keys are plain keys, those that hold a list being made of
    word characters and stars, and where no list is an element of a list,
    every pair (path, leaf) that [dwalk] yields satisfies
    [dget2(t, path) == leaf]. *)
Theorem dwalk_dget2_roundtrip (d : dict) (default : value) (path : str) (leaf : value) :
  legacy_walkable false (VDict d) = true ->
  In (path, leaf) (fst (dwalk (VDict d))) ->
  dget2 (VDict d) path default = Ok leaf.
Proof.
  intros Hw Hp. pose proof Hw as Hw'.
  cbn [legacy_walkable] in Hw'. apply andb_true_iff in Hw'. destruct Hw' as [Hu Hd].
  rewrite forallb_forall in Hd.
  unfold dwalk in Hp. cbn [_dwalk_with_path] in Hp.
  apply yield_from_all_in in Hp. destruct Hp as (g & Hg & Hp).
  apply in_map_iff in Hg. destruct Hg as ([key x] & <- & Hin).
  specialize (Hd _ Hin). cbn beta iota in Hd.
  apply andb_true_iff in Hd. destruct Hd as [Hk Hx].
  destruct key as [s|i]; [|discriminate].
  apply andb_true_iff in Hk. destruct Hk as [Hplain Hword].
  destruct (plain_key_inv _ Hplain) as [Hb Hstar]. apply str_eqb_neq in Hstar.
  cbv zeta in Hp. change ([] ++ [KStr s]) with (map KStr [s]) in Hp.
  assert (dget2_step (VDict d) s = Ok x) as Hstep
      by exact (dget2_step_key _ _ _ (get_repetition_index_key _ Hplain) Hstar
                  (dict_get_in _ _ _ Hu Hin)).
  destruct (legacy_walk_sound x false [s] (VDict d) Hx) with (p := path) (leaf := leaf)
    as [Hhd Hread].
  - discriminate.
  - simpl. destruct (bare_inv _ Hb) as [Hne _]. exact Hne.
  - simpl. rewrite (bare_no_slash _ Hb). reflexivity.
  - cbn [dget2_loop]. rewrite Hstep. reflexivity.
  - intros _. exists [], s, d. split; [reflexivity|]. split.
    + intros xs E. rewrite E in Hword. exact Hword.
    + split; [reflexivity|exact (dict_get_in _ _ _ Hu Hin)].
  - exact Hp.
  - unfold dget2. rewrite (strip_slash_first_segment _ Hhd), Hread. reflexivity.
Qed.

Lemma dwalk_dget2_roundtrip_witness :
  let d := [(KStr (py "users"),
             VList [VDict [(KStr (py "first name"), VStr (py "Al"))];
                    VDict [(KStr (py "first name"), VStr (py "Bo"))]])] in
  dget2 (VDict d) (py "users[1]/first name") VNone = Ok (VStr (py "Bo")).
Proof.
  intros d.
  apply (dwalk_dget2_roundtrip d VNone (py "users[1]/first name") (VStr (py "Bo")) eq_refl).
  simpl. right. left. reflexivity.
Defined.

(** ** The repetition reference of a segment *)

Lemma span_stops_inside (p : ascii -> bool) (s tail : str) :
  existsb (fun c => negb (p c)) s = true ->
  exists a y b, span p (s ++ tail) = (a, y :: b ++ tail) /\ s = a ++ y :: b /\ p y = false.
Proof.
  induction s as [|c s IH]; [discriminate|]. simpl.
  destruct (p c) eqn:Hc; simpl.
  - intros H. destruct (IH H) as (a & y & b & -> & -> & Hy).
    exists (c :: a), y, b. auto.
  - intros _. exists [], c, s. auto.
Qed.

Lemma repetition_at_broken_run (s tail : str) :
  existsb (fun c => negb (is_word_or_star c)) s = true ->
  forallb (fun c => negb (Ascii.eqb c "[")) s = true ->
  repetition_at (s ++ tail) = None.
Proof.
  intros Hrun Hplain. unfold repetition_at.
  destruct (span_stops_inside is_word_or_star s tail Hrun) as (a & y & b & -> & -> & Hy).
  rewrite forallb_app in Hplain. apply andb_true_iff in Hplain.
  destruct Hplain as [_ Hplain]. simpl in Hplain.
  apply andb_true_iff in Hplain. destruct Hplain as [Hy' _].
  destruct a; [reflexivity|]. destruct (Ascii.eqb y "["); [discriminate|reflexivity].
Qed.

Lemma repetition_at_reference (key : str) (negative : bool) (ds : str) :
  key <> [] -> forallb is_word_or_star key = true -> digits ds = true ->
  repetition_at (key ++ index_text negative ds) = Some (key, sign_text negative ++ ds).
Proof.
  intros Hne Hall Hd. destruct (digits_inv _ Hd) as [Hdne Hdall].
  unfold repetition_at.
  rewrite (span_run is_word_or_star key (index_text negative ds) Hall eq_refl).
  destruct key as [|c key]; [congruence|].
  unfold index_text. change (Ascii.eqb "[" "[") with true. cbv iota.
  rewrite app_assoc.
  rewrite (span_run is_digit_or_dash (sign_text negative ++ ds) ["]"]
             (digit_or_dash_sign _ _ Hdall) eq_refl).
  destruct (sign_text negative ++ ds) eqn:E; [|reflexivity].
  apply app_eq_nil in E. destruct E as [_ E]. congruence.
Qed.

Lemma existsb_snoc {A} (f : A -> bool) (xs : list A) (x : A) :
  f x = true -> existsb f (xs ++ [x]) = true.
Proof. intros H. rewrite existsb_app. simpl. rewrite H. apply orb_true_r. Qed.

Lemma repetition_search_skips (junk : str) (x : ascii) (reference : str) :
  is_word_or_star x = false ->
  forallb (fun c => negb (Ascii.eqb c "[")) (junk ++ [x]) = true ->
  repetition_search ((junk ++ [x]) ++ reference) = repetition_search reference.
Proof.
  intros Hx. induction junk as [|c junk IH]; intros Hplain.
  - change (([] ++ [x]) ++ reference) with (x :: reference).
    cbn [repetition_search].
    pose proof (repetition_at_broken_run [x] reference) as Hnone.
    change ([x] ++ reference) with (x :: reference) in Hnone.
    rewrite Hnone; [reflexivity| |exact Hplain].
    simpl. rewrite Hx. reflexivity.
  - change (((c :: junk) ++ [x]) ++ reference) with (c :: ((junk ++ [x]) ++ reference)).
    cbn [repetition_search].
    change (c :: ((junk ++ [x]) ++ reference)) with (((c :: junk) ++ [x]) ++ reference).
    rewrite (repetition_at_broken_run _ reference); [| |exact Hplain].
    + apply IH. simpl in Hplain. apply andb_true_iff in Hplain. exact (proj2 Hplain).
    + apply existsb_snoc. rewrite Hx. reflexivity.
Qed.

(** X19. What [_get_repetition_index] makes of a segment: nothing when the
    segment has no opening bracket; the key and the integer of [key[i]]
    when the key is a run of word characters and stars; the same when
    that run follows any text without bracket that ends outside the run,
    which is ignored; and no exception other than [ValueError]. *)
Theorem get_repetition_index_contract :
  (forall segment : str,
      forallb (fun c => negb (Ascii.eqb c "[")) segment = true ->
      _get_repetition_index segment = Ok None)
  /\ (forall (key : str) (negative : bool) (ds : str),
         key <> [] -> forallb is_word_or_star key = true -> digits ds = true ->
         _get_repetition_index (key ++ index_text negative ds)
         = Ok (Some (key, int_group negative ds)))
  /\ (forall (junk : str) (x : ascii) (key : str) (negative : bool) (ds : str),
         is_word_or_star x = false ->
         forallb (fun c => negb (Ascii.eqb c "[")) (junk ++ [x]) = true ->
         key <> [] -> forallb is_word_or_star key = true -> digits ds = true ->
         _get_repetition_index ((junk ++ [x]) ++ key ++ index_text negative ds)
         = Ok (Some (key, int_group negative ds)))
  /\ (forall (segment : str) (e : exn),
         _get_repetition_index segment = Raise e -> e = ValueError).
Proof.
  assert (forall (key : str) (negative : bool) (ds : str),
             key <> [] -> forallb is_word_or_star key = true -> digits ds = true ->
             repetition_search (key ++ index_text negative ds)
             = Some (key, sign_text negative ++ ds)) as Hsearch.
  { intros key negative ds Hne Hall Hd.
    destruct key as [|c key]; [congruence|].
    change ((c :: key) ++ index_text negative ds)
      with (c :: (key ++ index_text negative ds)).
    cbn [repetition_search].
    change (c :: (key ++ index_text negative ds))
      with ((c :: key) ++ index_text negative ds).
    rewrite (repetition_at_reference _ _ _ Hne Hall Hd). reflexivity. }
  split; [|split; [|split]].
  - intros segment H. unfold _get_repetition_index.
    rewrite (repetition_search_needs_bracket _ H). reflexivity.
  - intros key negative ds Hne Hall Hd. unfold _get_repetition_index.
    rewrite (Hsearch _ _ _ Hne Hall Hd), (py_int_text _ _ Hd). reflexivity.
  - intros junk x key negative ds Hx Hplain Hne Hall Hd. unfold _get_repetition_index.
    rewrite (repetition_search_skips _ _ _ Hx Hplain).
    rewrite (Hsearch _ _ _ Hne Hall Hd), (py_int_text _ _ Hd). reflexivity.
  - exact get_repetition_index_raises.
Qed.

Lemma get_repetition_index_contract_witness :
  _get_repetition_index (py "a-b[07]") = Ok (Some (py "b", 7))
  /\ _get_repetition_index (py "plain key") = Ok None.
Proof.
  destruct get_repetition_index_contract as (Hnone & _ & Hskip & _). split.
  - apply (Hskip (py "a") "-" (py "b") false (py "07")); try reflexivity. discriminate.
  - apply Hnone. reflexivity.
Defined.

(** ** Broadcasting a key *)

Lemma each_result_forall2 {A B} (f : A -> result B) (xs : list A) (ys : list B) :
  each_result f xs = Ok ys -> Forall2 (fun x y => f x = Ok y) xs ys.
Proof.
  revert ys. induction xs as [|x xs IH]; intros ys; simpl.
  - intros [= <-]. constructor.
  - destruct (f x) as [y|] eqn:Ey; [|discriminate]. simpl.
    destruct (each_result f xs) as [ys'|]; [|discriminate]. simpl.
    intros [= <-]. constructor; [exact Ey|apply IH; reflexivity].
Qed.

Lemma each_result_raises {A B} (f : A -> result B) (before after : list A)
      (x : A) (ys : list B) (e : exn) :
  each_result f before = Ok ys -> f x = Raise e ->
  each_result f (before ++ x :: after) = Raise e.
Proof.
  revert ys. induction before as [|b before IH]; intros ys; simpl.
  - intros _ ->. reflexivity.
  - destruct (f b); [|discriminate]. simpl.
    destruct (each_result f before) as [ys'|]; [|discriminate].
    intros _ Hx. rewrite (IH ys' eq_refl Hx). reflexivity.
Qed.

(** X20. [_flatdget] broadcasts a string key over a list and nothing else:
    the result is a list with one value per element, in order, each the
    result for that element, and the first element that raises makes the
    whole lookup raise the same exception; an integer key always indexes
    the value at hand. *)
Theorem flatdget_broadcast (key : str) :
  (forall (items : list value) (r : value),
      _flatdget (VList items) (KStr key) = Ok r ->
      exists values,
        r = VList values
        /\ Forall2 (fun item v => _flatdget item (KStr key) = Ok v) items values)
  /\ (forall (before after : list value) (item : value) (values : list value) (e : exn),
         each_result (fun value => _flatdget value (KStr key)) before = Ok values ->
         _flatdget item (KStr key) = Raise e ->
         _flatdget (VList (before ++ item :: after)) (KStr key) = Raise e)
  /\ (forall (data : value) (index : Z),
         _flatdget data (KInt index) = getitem data (KInt index)).
Proof.
  split; [|split].
  - intros items r. cbn [_flatdget].
    destruct (each_result (fun value => _flatdget value (KStr key)) items) as [vs|] eqn:E;
      [|discriminate].
    simpl. intros [= <-]. exists vs. split; [reflexivity|].
    exact (each_result_forall2 _ _ _ E).
  - intros before after item values e Hb Hi. cbn [_flatdget].
    rewrite (each_result_raises _ _ _ _ _ _ Hb Hi). reflexivity.
  - exact flatdget_index.
Qed.

Lemma flatdget_broadcast_witness :
  _flatdget (VList [VDict [(KStr (py "a"), VInt 1)]; VDict []; VInt 3]) (KStr (py "a"))
  = Raise KeyError.
Proof.
  apply (proj1 (proj2 (flatdget_broadcast (py "a")))
               [VDict [(KStr (py "a"), VInt 1)]] [VInt 3] (VDict []) [VInt 1] KeyError);
    reflexivity.
Defined.
